(** * DefaultAnimBinder: a shallow embedding of src/anim/binder/default-anim-binder.js

    The binder resolves animation-curve paths to mutation targets on one
    scene-graph hierarchy, caches the targets, counts bindings per node and
    keeps the list of nodes that [update] has to flag dirty.

    JS objects used as dictionaries ([nodes], [targetCache], [nodeCounts],
    [visitedFallbackGraphPaths], the mask) are finite maps from strings; keys
    that would hit a member of [Object.prototype] are outside the model.
    JS arrays are lists.  Objects that the code compares by reference carry
    an identity number. *)

From Stdlib Require Import ZArith List.
From stdpp Require Import base option list strings gmap.

Set Warnings "-register-all".

Open Scope string_scope.
Open Scope Z_scope.

(** ** Scene graph and mesh collaborators *)

(** The morph of a morph instance; the binder only reads [_targets.length]. *)
Record Morph := { _targets : list string }.

(** A morph instance: [mid] is the identity of the object; its weights live
    in a store keyed by [mid], because [setWeight] mutates them. *)
Record MorphInstance := { mid : nat; morph : Morph }.

(** A mesh instance; [mi_node_name] is [meshInstance.node.name]. *)
Record MeshInstance := {
  mi_id : nat;
  mi_node_name : string;
  morphInstance : option MorphInstance
}.

(** A render or model component; [meshInstances] may be unset. *)
Record MeshComponent := { meshInstances : option (list MeshInstance) }.

(** A node of the scene graph, as a JS reference sees it: [oid] is the
    identity of the object, [children] the subtree below and [parent] the
    chain of ancestors above it.  [node] is the value of the member read by
    [unresolve] as [node.node]; [None] is [undefined]. *)
Inductive GraphNode := mkGraphNode {
  oid : nat;
  name : string;
  path : string;
  node : option nat;
  isEntity : bool;
  render : option MeshComponent;
  model : option MeshComponent;
  parent : option GraphNode;
  children : list GraphNode
}.

(** Induction over the subtree of a node (the ancestors are not visited). *)
Fixpoint GraphNode_subtree_ind (P : GraphNode -> Prop)
    (step : forall n, Forall P (children n) -> P n) (n : GraphNode) : P n :=
  step n
    ((fix go (l : list GraphNode) : Forall P l :=
        match l with
        | [] => Forall_nil_2 P
        | c :: l' => Forall_cons_2 P c l' (GraphNode_subtree_ind P step c) (go l')
        end) (children n)).

(** ** Paths, keys, targets *)

Record Path := {
  entityPath : list string;
  component : string;
  propertyPath : string
}.

(** [Array.prototype.join] on an array of strings. *)
Fixpoint join (sep : string) (l : list string) : string :=
  match l with
  | [] => ""
  | [s] => s
  | s :: rest => s +:+ sep +:+ join sep rest
  end.

(** Modelled from the spec: [AnimBinder.encode] (anim-binder.js is not part of
    the sources).  The canonical key of (entity path segments, component kind,
    property name): the segments joined by a slash, then the component and the
    property; an empty entity path gives an empty leading segment. *)
Definition encode (entityPath : list string) (component propertyPath : string) : string :=
  join "/" entityPath +:+ "/" +:+ component +:+ "/" +:+ propertyPath.

(** The closure a handler builds, defunctionalised: which objects it captured. *)
Inductive TargetFunc :=
| SetLocalPosition (owner : nat)
| SetLocalRotation (owner : nat)
| SetLocalScale (owner : nat)
| SetWeights (morphInstances : list MorphInstance)
| SetMaterialTexture (meshInstance : MeshInstance) (textureName : option string).

(** An [AnimTarget]; [tid] is the identity of the allocated object. *)
Record AnimTarget := {
  tid : nat;
  func : TargetFunc;
  type : string;
  valueCount : nat;
  targetPath : string
}.

(** ** Binder state *)

(** A JS number stored in [nodeCounts]: an integer (counts stay far below
    2^53, where the doubles of JS are exact) or NaN. *)
Inductive JSNum := Num (z : Z) | NaN.

Record MaskItem := { value : option bool; mask_children : option bool }.

Record DefaultAnimBinder := {
  graph : GraphNode;
  _mask : option (gmap string MaskItem);
  nodes : gmap string GraphNode;
  targetCache : gmap string AnimTarget;
  visitedFallbackGraphPaths : gmap string Z;
  nodeCounts : gmap string JSNum;
  activeNodes : list GraphNode;
  (* not fields of the JS object: the build flag of the [#if _DEBUG] block,
     the lines written by [console.warn], the number of targets allocated *)
  _DEBUG : bool;
  console : list string;
  allocated : nat
}.

(** The recursive closure [flatten] of the constructor, writing into the
    shared object [nodes]. *)
Fixpoint flatten (n : GraphNode) (acc : gmap string GraphNode) : gmap string GraphNode :=
  fold_left (fun acc' c => flatten c acc') (children n) (<[name n := n]> acc).

(** The constructor, for a graph that is present.  The tables start as the
    empty object: the maps hold its own properties, the members it inherits
    from [Object.prototype] are not in them. *)
Definition new (debug : bool) (g : GraphNode) : DefaultAnimBinder :=
  {| graph := g; _mask := None; nodes := flatten g ∅; targetCache := ∅;
     visitedFallbackGraphPaths := ∅; nodeCounts := ∅; activeNodes := [];
     _DEBUG := debug; console := []; allocated := 0 |}.

(** Field updates of the binder record. *)
Definition set_mask (m : option (gmap string MaskItem)) (b : DefaultAnimBinder) :=
  {| graph := graph b; _mask := m; nodes := nodes b; targetCache := targetCache b;
     visitedFallbackGraphPaths := visitedFallbackGraphPaths b;
     nodeCounts := nodeCounts b; activeNodes := activeNodes b;
     _DEBUG := _DEBUG b; console := console b; allocated := allocated b |}.


Definition set_visited (v : gmap string Z) (b : DefaultAnimBinder) :=
  {| graph := graph b; _mask := _mask b; nodes := nodes b; targetCache := targetCache b;
     visitedFallbackGraphPaths := v;
     nodeCounts := nodeCounts b; activeNodes := activeNodes b;
     _DEBUG := _DEBUG b; console := console b; allocated := allocated b |}.

Definition console_warn (line : string) (b : DefaultAnimBinder) :=
  {| graph := graph b; _mask := _mask b; nodes := nodes b; targetCache := targetCache b;
     visitedFallbackGraphPaths := visitedFallbackGraphPaths b;
     nodeCounts := nodeCounts b; activeNodes := activeNodes b;
     _DEBUG := _DEBUG b; console := (console b ++ [line])%list; allocated := allocated b |}.

Definition cache_target (key : string) (t : AnimTarget) (b : DefaultAnimBinder) :=
  {| graph := graph b; _mask := _mask b; nodes := nodes b;
     targetCache := <[key := t]> (targetCache b);
     visitedFallbackGraphPaths := visitedFallbackGraphPaths b;
     nodeCounts := nodeCounts b; activeNodes := activeNodes b;
     _DEBUG := _DEBUG b; console := console b; allocated := S (allocated b) |}.

Definition set_nodeCounts (c : gmap string JSNum) (b : DefaultAnimBinder) :=
  {| graph := graph b; _mask := _mask b; nodes := nodes b; targetCache := targetCache b;
     visitedFallbackGraphPaths := visitedFallbackGraphPaths b;
     nodeCounts := c; activeNodes := activeNodes b;
     _DEBUG := _DEBUG b; console := console b; allocated := allocated b |}.

Definition set_activeNodes (l : list GraphNode) (b : DefaultAnimBinder) :=
  {| graph := graph b; _mask := _mask b; nodes := nodes b; targetCache := targetCache b;
     visitedFallbackGraphPaths := visitedFallbackGraphPaths b;
     nodeCounts := nodeCounts b; activeNodes := l;
     _DEBUG := _DEBUG b; console := console b; allocated := allocated b |}.

(** ** Mask evaluation *)

(** [maskItem?.children] as a condition. *)
Definition childrenSet (item : option MaskItem) : bool :=
  match item with
  | Some it => match mask_children it with Some true => true | _ => false end
  | None => false
  end.

(** The inner loop of [_isPathActive]: the prefixes [slice(0, i + 1)] for the
    indices given, leaving at the first one whose entry has [children]. *)
Fixpoint prefixLoop (mask : gmap string MaskItem) (entityPathArr : list string)
    (indices : list nat) : bool :=
  match indices with
  | [] => false
  | i :: rest =>
      if childrenSet (mask !! join "/" (take (S i) entityPathArr)) then true
      else prefixLoop mask entityPathArr rest
  end.

(** One round of the outer loop, for one candidate path. *)
Definition candidateActive (mask : gmap string MaskItem) (entityPathArr : list string) : bool :=
  let walk := prefixLoop mask entityPathArr (seq 0 (length entityPathArr)) in
  match mask !! join "/" entityPathArr with
  | Some it => match value it with Some false => walk | _ => true end
  | None => walk
  end.

Definition entityPathArrays (g : GraphNode) (p : Path) : list (list string) :=
  entityPath p ::
  (if bool_decide (Some (name g) ≠ head (entityPath p))
   then [name g :: drop 1 (entityPath p)] else []).

Definition _isPathActive (p : Path) (b : DefaultAnimBinder) : bool :=
  match _mask b with
  | None => true
  | Some mask =>
      fold_left (fun shouldAnimateNode arr =>
                   if candidateActive mask arr then true else shouldAnimateNode)
                (entityPathArrays (graph b) p) false
  end.

Definition assignMask (mask : option (gmap string MaskItem)) (b : DefaultAnimBinder) :=
  set_mask mask b.

(** ** Node lookup *)

(** Modelled from the spec: [GraphNode.findByPath] (graph-node.js is not part
    of the sources).  Exact traversal: starting at the bound graph root, follow
    the entity-path segments; if a node exists at every segment, return it. *)
Fixpoint findByPath (g : GraphNode) (segments : list string) : option GraphNode :=
  match segments with
  | [] => Some g
  | s :: rest =>
      match find (fun c => bool_decide (name c = s)) (children g) with
      | Some c => findByPath c rest
      | None => None
      end
  end.

(** [path.entityPath[path.entityPath.length - 1] || ""]. *)
Definition lastSegment (p : Path) : string := default "" (last (entityPath p)).

Definition fallbackGraphPath (p : Path) : string :=
  encode [lastSegment p] "graph" (propertyPath p).

Definition ambiguityWarning (key : string) (b : DefaultAnimBinder) : string :=
  "Anim Binder: Multiple animation curves with the path " +:+ key +:+
  " are present in the " +:+ path (graph b) +:+
  " graph which may result in the incorrect binding of animations".

(** The [#if _DEBUG] block of [findNode]. *)
Definition noteFallback (p : Path) (b : DefaultAnimBinder) : DefaultAnimBinder :=
  let key := fallbackGraphPath p in
  let b1 := if bool_decide (visitedFallbackGraphPaths b !! key = Some 1)
            then console_warn (ambiguityWarning key b) b else b in
  match visitedFallbackGraphPaths b1 !! key with
  | None => set_visited (<[key := 0]> (visitedFallbackGraphPaths b1)) b1
  | Some c => set_visited (<[key := c + 1]> (visitedFallbackGraphPaths b1)) b1
  end.

Definition findNode (p : Path) (b : DefaultAnimBinder) : option GraphNode * DefaultAnimBinder :=
  if negb (_isPathActive p b) then (None, b)
  else
    match findByPath (graph b) (entityPath p) with
    | Some n => (Some n, b)
    | None =>
        (nodes b !! lastSegment p, if _DEBUG b then noteFallback p b else b)
    end.

(** ** Handlers *)

(** [DefaultAnimBinder.createAnimTarget]; [fresh] is the identity given to the
    new [AnimTarget], [node.path] is encoded as a one-segment entity path. *)
Definition createAnimTarget (fresh : nat) (f : TargetFunc) (ty : string) (count : nat)
    (n : GraphNode) (propertyPath : string) (componentType : option string) : AnimTarget :=
  {| tid := fresh; func := f; type := ty; valueCount := count;
     targetPath := encode [path n] (default "entity" componentType) propertyPath |}.

(** The loop of [findMeshInstances]: walk up to the first node of entity type. *)
Fixpoint firstEntity (object : GraphNode) : option GraphNode :=
  if isEntity object then Some object
  else match parent object with
       | Some up => firstEntity up
       | None => None
       end.

Definition findMeshInstances (n : GraphNode) : option (list MeshInstance) :=
  match firstEntity n with
  | Some object =>
      match render object with
      | Some r => meshInstances r
      | None => match model object with
                | Some m => meshInstances m
                | None => None
                end
      end
  | None => None
  end.

(** The collecting loop of the ['weights'] handler. *)
Fixpoint collectMorphInstances (n : GraphNode) (mis : list MeshInstance) : list MorphInstance :=
  match mis with
  | [] => []
  | mi :: rest =>
      match morphInstance mi with
      | Some m =>
          if bool_decide (mi_node_name mi = name n)
          then m :: collectMorphInstances n rest
          else collectMorphInstances n rest
      | None => collectMorphInstances n rest
      end
  end.

(** The morph instances the ['weights'] handler finds for a node. *)
Definition morphInstancesOf (n : GraphNode) : list MorphInstance :=
  match findMeshInstances n with
  | Some mis => collectMorphInstances n mis
  | None => []
  end.

Definition handler_localPosition (fresh : nat) (n : GraphNode) : option AnimTarget :=
  Some (createAnimTarget fresh (SetLocalPosition (oid n)) "vector" 3 n "localPosition" None).

Definition handler_localRotation (fresh : nat) (n : GraphNode) : option AnimTarget :=
  Some (createAnimTarget fresh (SetLocalRotation (oid n)) "quaternion" 4 n "localRotation" None).

Definition handler_localScale (fresh : nat) (n : GraphNode) : option AnimTarget :=
  Some (createAnimTarget fresh (SetLocalScale (oid n)) "vector" 3 n "localScale" None).

Definition handler_weights (fresh : nat) (n : GraphNode) : option AnimTarget :=
  match findMeshInstances n with
  | Some mis =>
      match collectMorphInstances n mis with
      | [] => None
      | m0 :: ms =>
          Some (createAnimTarget fresh (SetWeights (m0 :: ms)) "vector"
                  (length (_targets (morph m0))) n "weights" None)
      end
  | None => None
  end.

Definition handler_materialTexture (fresh : nat) (n : GraphNode)
    (textureName : option string) : option AnimTarget :=
  match findMeshInstances n with
  | Some mis =>
      match find (fun mi => bool_decide (mi_node_name mi = name n)) mis with
      | Some mi =>
          Some (createAnimTarget fresh (SetMaterialTexture mi textureName) "vector" 1 n
                  "materialTexture" (Some "material"))
      | None => None
      end
  | None => None
  end.

(** [this.handlers[propertyPath]], for the five own keys of the table (a
    property named like a member of [Object.prototype] finds that member in
    the code and is outside the model); [resolve] calls the handler with the
    node alone, so the texture name of ['materialTexture'] is [undefined]. *)
Definition handlers (propertyPath : string) : option (nat -> GraphNode -> option AnimTarget) :=
  if bool_decide (propertyPath = "localPosition") then Some handler_localPosition
  else if bool_decide (propertyPath = "localRotation") then Some handler_localRotation
  else if bool_decide (propertyPath = "localScale") then Some handler_localScale
  else if bool_decide (propertyPath = "weights") then Some handler_weights
  else if bool_decide (propertyPath = "materialTexture")
       then Some (fun fresh n => handler_materialTexture fresh n None)
  else None.

(** Modelled from the spec: the morph-instance weight setter
    [MorphInstance.setWeight(index, weight)] (morph-instance.js is not part of
    the sources): it sets the morph weight at the index.  The store maps the
    identity of a morph instance to its weights by index. *)
Definition setWeight {V} (m : MorphInstance) (index : nat) (weight : V)
    (store : gmap nat (gmap nat V)) : gmap nat (gmap nat V) :=
  <[mid m := <[index := weight]> (default ∅ (store !! mid m))]> store.

(** The closure of the ['weights'] handler: for every index [i] of [value],
    for every captured morph instance, [setWeight(i, value[i])]. *)
Fixpoint weightsLoop {V} (ms : list MorphInstance) (i : nat) (value : list V)
    (store : gmap nat (gmap nat V)) : gmap nat (gmap nat V) :=
  match value with
  | [] => store
  | v :: rest =>
      weightsLoop ms (S i) rest
        (fold_left (fun st m => setWeight m i v st) ms store)
  end.

(** Calling the mutation function of a target whose closure is [SetWeights]. *)
Definition callWeights {V} (t : AnimTarget) (value : list V)
    (store : gmap nat (gmap nat V)) : gmap nat (gmap nat V) :=
  match func t with
  | SetWeights ms => weightsLoop ms 0 value store
  | _ => store
  end.

(** ** resolve, unresolve, update *)

Definition encodedPath (p : Path) : string :=
  encode (entityPath p) (component p) (propertyPath p).

(** [!this.nodeCounts[key]] *)
Definition countFalsy (c : option JSNum) : bool :=
  match c with
  | None => true
  | Some NaN => true
  | Some (Num z) => z =? 0
  end.

(** [x++] and [x--] on a table entry, [undefined] converting to NaN. *)
Definition increment (c : option JSNum) : JSNum :=
  match c with Some (Num z) => Num (z + 1) | _ => NaN end.

Definition decrement (c : option JSNum) : JSNum :=
  match c with Some (Num z) => Num (z - 1) | _ => NaN end.

Definition countNode (n : GraphNode) (b : DefaultAnimBinder) : DefaultAnimBinder :=
  if countFalsy (nodeCounts b !! path n)
  then set_nodeCounts (<[path n := Num 1]> (nodeCounts b))
         (set_activeNodes (activeNodes b ++ [n])%list b)
  else set_nodeCounts (<[path n := increment (nodeCounts b !! path n)]> (nodeCounts b)) b.

Definition resolve (p : Path) (b : DefaultAnimBinder) : option AnimTarget * DefaultAnimBinder :=
  match targetCache b !! encodedPath p with
  | Some target => (Some target, b)
  | None =>
      let '(found, b1) := findNode p b in
      match found with
      | None => (None, b1)
      | Some n =>
          match handlers (propertyPath p) with
          | None => (None, b1)
          | Some handler =>
              match handler (allocated b1) n with
              | None => (None, b1)
              | Some target =>
                  (Some target, countNode n (cache_target (encodedPath p) target b1))
              end
          end
      end
  end.

(** How a call ends: normally, or by a thrown error. *)
Inductive Completion (A : Type) :=
| Normal (a : A)
| Throw (error : string).
Arguments Normal {A} a.
Arguments Throw {A} error.

(** [activeNodes.indexOf(x)] for the value [x] of [node.node]: the array holds
    node objects only, so [undefined] is never found. *)
Fixpoint indexFrom (k : nat) (i : Z) (l : list GraphNode) : Z :=
  match l with
  | [] => -1
  | n :: rest => if bool_decide (oid n = k) then i else indexFrom k (i + 1) rest
  end.

Definition indexOf (x : option nat) (l : list GraphNode) : Z :=
  match x with
  | None => -1
  | Some k => indexFrom k 0 l
  end.

(** The removal in [unresolve], with [i] the result of [indexOf]: the
    assignment [activeNodes[i] = activeNodes[len - 1]] when [i < len - 1]
    (at [i = -1] it writes the property ["-1"], which is no element of the
    array), then [pop()]. *)
Definition swapPop (i : Z) (l : list GraphNode) : list GraphNode :=
  let len := Z.of_nat (length l) in
  let l1 :=
    if i <? len - 1
    then match last l with
         | Some x => if 0 <=? i then <[Z.to_nat i := x]> l else l
         | None => l
         end
    else l in
  removelast l1.

Definition unresolve (p : Path) (b : DefaultAnimBinder) : Completion DefaultAnimBinder :=
  if bool_decide (component p ≠ "graph") then Normal b
  else
    match nodes b !! lastSegment p with
    | None => Throw "TypeError"
    | Some n =>
        let c := decrement (nodeCounts b !! path n) in
        let b1 := set_nodeCounts (<[path n := c]> (nodeCounts b)) b in
        match c with
        | Num 0 =>
            Normal (set_activeNodes (swapPop (indexOf (node n) (activeNodes b1))
                                             (activeNodes b1)) b1)
        | _ => Normal b1
        end
    end.

(** [update]: the calls of [_dirtifyLocal], in order, appended to the record
    [dirtied] of such calls. *)
Definition update {T} (deltaTime : T) (b : DefaultAnimBinder) (dirtied : list GraphNode)
  : list GraphNode :=
  fold_left (fun log n => (log ++ [n])%list) (activeNodes b) dirtied.

(** ** Sequences of calls *)

(** The binder states reached from [b0] by calls of [resolve] (for paths that
    satisfy [ok]), [unresolve] (when it completes) and [assignMask], on an
    unchanged graph. *)
Inductive reachableBy (ok : Path -> Prop) (b0 : DefaultAnimBinder)
  : DefaultAnimBinder -> Prop :=
| reach_start : reachableBy ok b0 b0
| reach_resolve b p :
    reachableBy ok b0 b -> ok p -> reachableBy ok b0 (snd (resolve p b))
| reach_unresolve b p b' :
    reachableBy ok b0 b -> unresolve p b = Normal b' -> reachableBy ok b0 b'
| reach_assignMask b mask :
    reachableBy ok b0 b -> reachableBy ok b0 (assignMask mask b).

(** Any sequence of calls. *)
Definition reachable : DefaultAnimBinder -> DefaultAnimBinder -> Prop :=
  reachableBy (fun _ => True).

(** Paths whose canonical key is that of [p] only if their entity path is. *)
Definition keyApart (p q : Path) : Prop :=
  encodedPath q = encodedPath p -> entityPath q = entityPath p.

(** Repeated [findNode] calls, one per path of the list. *)
Definition findNodes (ps : list Path) (b : DefaultAnimBinder) : DefaultAnimBinder :=
  fold_left (fun b' p => snd (findNode p b')) ps b.

(** A path that passes the mask, fails exact traversal and so uses the
    fallback name lookup, with the canonical fallback form [key]. *)
Definition fallsBack (b : DefaultAnimBinder) (key : string) (p : Path) : Prop :=
  _isPathActive p b = true /\
  findByPath (graph b) (entityPath p) = None /\
  fallbackGraphPath p = key.

(** The weight a store holds for a morph instance at an index. *)
Definition weightAt {V} (store : gmap nat (gmap nat V)) (id index : nat) : option V :=
  store !! id ≫= (fun weights => weights !! index).

(** The reference count of a node path, an absent entry reading as 0. *)
Definition refCount (b : DefaultAnimBinder) (key : string) : JSNum :=
  default (Num 0) (nodeCounts b !! key).

(** Two binder states that agree on the graph, the mask and the name index. *)
Definition sameLookup (b b' : DefaultAnimBinder) : Prop :=
  graph b' = graph b /\ _mask b' = _mask b /\ nodes b' = nodes b.

(** The nodes of a graph in depth-first pre-order: a node before its
    children, the children in index order. *)
Fixpoint preorder (n : GraphNode) : list GraphNode :=
  n :: flat_map preorder (children n).

(** The node of that name visited last in pre-order. *)
Definition lastNamed (nm : string) (g : GraphNode) : option GraphNode :=
  last (filter (fun n => name n = nm) (preorder g)).

(** ** Concrete scenes *)

Module Scenes.

(** A plain graph node without components and without a [node] member. *)
Definition gnode (id : nat) (nm pth : string) (up : option GraphNode)
    (kids : list GraphNode) : GraphNode :=
  mkGraphNode id nm pth None false None None up kids.

Definition graphPath (segments : list string) (prop : string) : Path :=
  {| entityPath := segments; component := "graph"; propertyPath := prop |}.

(** Root with the two children A and B. *)
Definition up_Root := gnode 0 "Root" "Root" None [].
Definition nA := gnode 1 "A" "Root/A" (Some up_Root) [].
Definition nB := gnode 2 "B" "Root/B" (Some up_Root) [].
Definition Root := gnode 0 "Root" "Root" None [nA; nB].

Definition pA := graphPath ["A"] "localPosition".
Definition pB := graphPath ["B"] "localPosition".
Definition pGhost := graphPath ["Ghost"] "localPosition".

(** Two nodes named Leaf, under X and under Y. *)
Definition up_X := gnode 1 "X" "Top/X" (Some (gnode 0 "Top" "Top" None [])) [].
Definition up_Y := gnode 3 "Y" "Top/Y" (Some (gnode 0 "Top" "Top" None [])) [].
Definition leafX := gnode 2 "Leaf" "Top/X/Leaf" (Some up_X) [].
Definition leafY := gnode 4 "Leaf" "Top/Y/Leaf" (Some up_Y) [].
Definition Top := gnode 0 "Top" "Top" None
  [gnode 1 "X" "Top/X" (Some (gnode 0 "Top" "Top" None [])) [leafX];
   gnode 3 "Y" "Top/Y" (Some (gnode 0 "Top" "Top" None [])) [leafY]].

Definition pLeafX := graphPath ["X"; "Leaf"] "localPosition".

(** The chain A -> B -> C. *)
Definition chainA := gnode 0 "A" "A" None
  [gnode 1 "B" "A/B" (Some (gnode 0 "A" "A" None []))
     [gnode 2 "C" "A/B/C"
        (Some (gnode 1 "B" "A/B" (Some (gnode 0 "A" "A" None [])) [])) []]].

Definition maskExclude : gmap string MaskItem :=
  <["A/B" := {| value := Some false; mask_children := None |}]>
    {["A" := {| value := None; mask_children := Some true |}]}.

Definition maskSubtree : gmap string MaskItem :=
  {["A/B" := {| value := None; mask_children := Some true |}]}.

(** An entity with a render component: two mesh instances on the node Head,
    the first with a morph of three targets, and one on the node Body. *)
Definition morphHead := {| mid := 7; morph := {| _targets := ["smile"; "blink"; "frown"] |} |}.
Definition morphBody := {| mid := 8; morph := {| _targets := ["breathe"] |} |}.
Definition actor := mkGraphNode 10 "Actor" "Actor" None true
  (Some {| meshInstances := Some
     [ {| mi_id := 0; mi_node_name := "Head"; morphInstance := Some morphHead |};
       {| mi_id := 1; mi_node_name := "Body"; morphInstance := Some morphBody |};
       {| mi_id := 2; mi_node_name := "Hat"; morphInstance := None |} ] |})
  None None [].
Definition head := gnode 11 "Head" "Actor/Head" (Some actor) [].
Definition hat := gnode 12 "Hat" "Actor/Hat" (Some actor) [].

End Scenes.

(** ** Further vocabulary *)

(** The names of the members of [Object.prototype].  The tables of the binder
    ([nodes], [handlers], [nodeCounts], the mask) are objects created by [{}]:
    a lookup of one of these names finds the inherited member, where the
    finite maps, which hold the own properties, answer that the key is
    absent.  A statement that rests on the absence of a key is made for keys
    that are none of these names. *)
Definition objectPrototypeMembers : list string :=
  ["constructor"; "__defineGetter__"; "__defineSetter__"; "hasOwnProperty";
   "__lookupGetter__"; "__lookupSetter__"; "isPrototypeOf";
   "propertyIsEnumerable"; "toString"; "valueOf"; "__proto__"; "toLocaleString"].

(** A node and its ancestors, nearest first: the objects the loop of
    [findMeshInstances] visits. *)
Fixpoint lineage (n : GraphNode) : list GraphNode :=
  n :: match parent n with
       | Some up => lineage up
       | None => []
       end.

(** Induction along the ancestors of a node. *)
Fixpoint GraphNode_lineage_ind (P : GraphNode -> Prop)
    (step : forall n, match parent n with Some up => P up | None => True end -> P n)
    (n : GraphNode) : P n :=
  step n
    (match parent n as o return match o with Some up => P up | None => True end with
     | Some up => GraphNode_lineage_ind P step up
     | None => I
     end).

(** The mask has an entry at the exact path whose [value] is not [false]. *)
Definition exactAllows (mask : gmap string MaskItem) (arr : list string) : Prop :=
  exists item, mask !! join "/" arr = Some item /\ value item <> Some false.

(** Some prefix of the path, of one segment up to the whole path, has a mask
    entry with [children: true]. *)
Definition prefixHasChildren (mask : gmap string MaskItem) (arr : list string) : Prop :=
  exists k, (1 <= k <= length arr)%nat /\
            childrenSet (mask !! join "/" (take k arr)) = true.





(** The console holds ambiguity warnings only, once each, and exactly those of
    the fallback keys whose use counter has passed 1. *)
Definition warningsMatchCounters (b : DefaultAnimBinder) : Prop :=
  (forall line, line ∈ console b ->
     exists key c, line = ambiguityWarning key b /\
                   visitedFallbackGraphPaths b !! key = Some c /\ 2 <= c) /\
  NoDup (console b) /\
  (forall key c, visitedFallbackGraphPaths b !! key = Some c ->
     0 <= c /\ (2 <= c -> ambiguityWarning key b ∈ console b)).

(** ** The debug log system of src/core/debug.js *)

Module Debug.

Inductive Level := LOG | WARN | ERROR.

(** The static members of the class, and the lines written to the console:
    the level ([console.log], [console.warn], [console.error]) with the
    arguments of the call, each argument as the string it prints as.
    [_DEBUG] is the build flag of the [#if _DEBUG] block in [setTrace]. *)
Record State := {
  _loggedMessages : gset string;
  _traceChannels : gset string;
  output : list (Level * list string);
  _DEBUG : bool
}.

Definition init (debug : bool) : State :=
  {| _loggedMessages := ∅; _traceChannels := ∅; output := []; _DEBUG := debug |}.

Definition write (level : Level) (args : list string) (s : State) : State :=
  {| _loggedMessages := _loggedMessages s; _traceChannels := _traceChannels s;
     output := (output s ++ [(level, args)])%list; _DEBUG := _DEBUG s |}.

Definition remember (message : string) (s : State) : State :=
  {| _loggedMessages := {[message]} ∪ _loggedMessages s;
     _traceChannels := _traceChannels s; output := output s; _DEBUG := _DEBUG s |}.

Definition set_channels (channels : gset string) (s : State) : State :=
  {| _loggedMessages := _loggedMessages s; _traceChannels := channels;
     output := output s; _DEBUG := _DEBUG s |}.

Definition setTrace (channel : string) (enabled : bool) (s : State) : State :=
  if _DEBUG s then
    if enabled then set_channels ({[channel]} ∪ _traceChannels s) s
    else set_channels (_traceChannels s ∖ {[channel]}) s
  else s.

Definition getTrace (channel : string) (s : State) : bool :=
  bool_decide (channel ∈ _traceChannels s).

Definition deprecated (message : string) (s : State) : State :=
  if bool_decide (message ∈ _loggedMessages s) then s
  else write WARN ["DEPRECATED: " +:+ message] (remember message s).

(** [assertion] is the truth value of the first argument. *)
Definition assert (assertion : bool) (args : list string) (s : State) : State :=
  if assertion then s else write ERROR ("ASSERT FAILED: " :: args) s.

Definition log (args : list string) (s : State) : State := write LOG args s.

Definition logOnce (message : string) (s : State) : State :=
  if bool_decide (message ∈ _loggedMessages s) then s
  else write LOG [message] (remember message s).

Definition warn (args : list string) (s : State) : State := write WARN args s.

Definition warnOnce (message : string) (s : State) : State :=
  if bool_decide (message ∈ _loggedMessages s) then s
  else write WARN [message] (remember message s).

Definition error (args : list string) (s : State) : State := write ERROR args s.

Definition errorOnce (message : string) (s : State) : State :=
  if bool_decide (message ∈ _loggedMessages s) then s
  else write ERROR [message] (remember message s).

(** The [length] of a JS string counts UTF-16 code units.  A string here
    holds the UTF-8 bytes of the JS string: a byte below 128, or the lead byte
    of a sequence of two or three bytes, stands for one code unit; the lead
    byte of a sequence of four bytes for the two code units of a surrogate
    pair; a continuation byte for none. *)
Definition codeUnitsOf (c : Ascii.ascii) : nat :=
  let byte := Ascii.nat_of_ascii c in
  if (byte <? 128)%nat then 1%nat
  else if (byte <? 192)%nat then 0%nat
  else if (byte <? 240)%nat then 1%nat
  else 2%nat.

Fixpoint codeUnits (s : string) : nat :=
  match s with
  | EmptyString => 0%nat
  | String c rest => (codeUnitsOf c + codeUnits rest)%nat
  end.

(** [String.prototype.padEnd(targetLength, ' ')]. *)
Fixpoint spaces (k : nat) : string :=
  match k with
  | O => ""
  | S k' => " " +:+ spaces k'
  end.

Definition padEnd (targetLength : nat) (s : string) : string :=
  s +:+ spaces (targetLength - codeUnits s).

Definition trace (channel : string) (args : list string) (s : State) : State :=
  if bool_decide (channel ∈ _traceChannels s)
  then write LOG ((padEnd 20 channel +:+ "|") :: args) s
  else s.

(** A call of one of the four functions that log a message once. *)
Inductive OnceCall :=
| Deprecated (message : string)
| LogOnce (message : string)
| WarnOnce (message : string)
| ErrorOnce (message : string).

Definition messageOf (c : OnceCall) : string :=
  match c with
  | Deprecated m | LogOnce m | WarnOnce m | ErrorOnce m => m
  end.

Definition callOnce (s : State) (c : OnceCall) : State :=
  match c with
  | Deprecated m => deprecated m s
  | LogOnce m => logOnce m s
  | WarnOnce m => warnOnce m s
  | ErrorOnce m => errorOnce m s
  end.

(** The line a call writes when its message was not logged before. *)
Definition lineOf (c : OnceCall) : Level * list string :=
  match c with
  | Deprecated m => (WARN, ["DEPRECATED: " +:+ m])
  | LogOnce m => (LOG, [m])
  | WarnOnce m => (WARN, [m])
  | ErrorOnce m => (ERROR, [m])
  end.

(** The calls of a sequence that are the first with their message. *)
Fixpoint firstCalls (seen : gset string) (cs : list OnceCall) : list OnceCall :=
  match cs with
  | [] => []
  | c :: rest =>
      if bool_decide (messageOf c ∈ seen) then firstCalls seen rest
      else c :: firstCalls ({[messageOf c]} ∪ seen) rest
  end.

(** The last setting of a channel in a sequence of [setTrace] calls. *)
Fixpoint lastSetting (channel : string) (calls : list (string * bool)) : option bool :=
  match calls with
  | [] => None
  | (c, enabled) :: rest =>
      match lastSetting channel rest with
      | Some e => Some e
      | None => if bool_decide (c = channel) then Some enabled else None
      end
  end.

End Debug.

(** * Properties *)

(** ** What [findNode] and [resolve] leave alone *)

Section Frames.

Implicit Types (b : DefaultAnimBinder) (p : Path).

Lemma isPathActive_sameLookup p b b' :
  sameLookup b b' -> _isPathActive p b' = _isPathActive p b.
Proof.
  intros (Hg & Hm & _). unfold _isPathActive. now rewrite Hg, Hm.
Qed.

Lemma noteFallback_frame p b :
  graph (noteFallback p b) = graph b /\ _mask (noteFallback p b) = _mask b /\
  nodes (noteFallback p b) = nodes b /\
  targetCache (noteFallback p b) = targetCache b /\
  nodeCounts (noteFallback p b) = nodeCounts b /\
  activeNodes (noteFallback p b) = activeNodes b /\
  allocated (noteFallback p b) = allocated b /\
  _DEBUG (noteFallback p b) = _DEBUG b.
Proof.
  unfold noteFallback.
  destruct (bool_decide _); simpl;
    destruct (visitedFallbackGraphPaths b !! fallbackGraphPath p); simpl; auto 10.
Qed.

Lemma findNode_frame p b :
  graph (snd (findNode p b)) = graph b /\ _mask (snd (findNode p b)) = _mask b /\
  nodes (snd (findNode p b)) = nodes b /\
  targetCache (snd (findNode p b)) = targetCache b /\
  nodeCounts (snd (findNode p b)) = nodeCounts b /\
  activeNodes (snd (findNode p b)) = activeNodes b /\
  allocated (snd (findNode p b)) = allocated b /\
  _DEBUG (snd (findNode p b)) = _DEBUG b.
Proof.
  unfold findNode.
  destruct (negb _); simpl; [auto 10|].
  destruct (findByPath _ _); simpl; [auto 10|].
  destruct (_DEBUG b) eqn:Hd; [|rewrite Hd; auto 10].
  pose proof (noteFallback_frame p b) as H. rewrite Hd in H. exact H.
Qed.

(** The node found depends on the graph, the mask and the index only. *)
Lemma findNode_fst p b :
  fst (findNode p b) =
  if _isPathActive p b
  then match findByPath (graph b) (entityPath p) with
       | Some n => Some n
       | None => nodes b !! lastSegment p
       end
  else None.
Proof.
  unfold findNode. destruct (_isPathActive p b); simpl; [|reflexivity].
  now destruct (findByPath _ _).
Qed.

Lemma findNode_fst_sameLookup p b b' :
  sameLookup b b' -> fst (findNode p b') = fst (findNode p b).
Proof.
  intros H. rewrite !findNode_fst, (isPathActive_sameLookup p b b' H).
  destruct H as (Hg & _ & Hn). now rewrite Hg, Hn.
Qed.

Lemma findNode_sameLookup p b : sameLookup b (snd (findNode p b)).
Proof. pose proof (findNode_frame p b). unfold sameLookup. tauto. Qed.

Lemma countNode_frame n b :
  graph (countNode n b) = graph b /\ _mask (countNode n b) = _mask b /\
  nodes (countNode n b) = nodes b /\ targetCache (countNode n b) = targetCache b /\
  allocated (countNode n b) = allocated b /\ _DEBUG (countNode n b) = _DEBUG b /\
  console (countNode n b) = console b /\
  visitedFallbackGraphPaths (countNode n b) = visitedFallbackGraphPaths b.
Proof. unfold countNode. destruct (countFalsy _); simpl; auto 10. Qed.

(** The outcomes of [resolve], case by case. *)
Lemma resolve_cases p b :
  (exists t, targetCache b !! encodedPath p = Some t /\ resolve p b = (Some t, b)) \/
  (targetCache b !! encodedPath p = None /\
   resolve p b = (None, snd (findNode p b)) /\
   (fst (findNode p b) = None \/
    exists n, fst (findNode p b) = Some n /\
      (handlers (propertyPath p) = None \/
       exists h, handlers (propertyPath p) = Some h /\
                 h (allocated b) n = None))) \/
  (exists n h t,
     targetCache b !! encodedPath p = None /\
     fst (findNode p b) = Some n /\ handlers (propertyPath p) = Some h /\
     h (allocated b) n = Some t /\
     resolve p b =
       (Some t, countNode n (cache_target (encodedPath p) t (snd (findNode p b))))).
Proof.
  unfold resolve.
  destruct (targetCache b !! encodedPath p) as [t|] eqn:Hc; [left; eauto|right].
  pose proof (findNode_frame p b) as (_ & _ & _ & _ & _ & _ & Ha & _).
  destruct (findNode p b) as [found b1] eqn:Hf. simpl in *.
  destruct found as [n|]; [|left; auto].
  destruct (handlers (propertyPath p)) as [h|] eqn:Hh; [|left; eauto 10].
  rewrite Ha.
  destruct (h (allocated b) n) as [t|] eqn:Ht; [right|left; eauto 10].
  exists n, h, t. auto.
Qed.

Lemma resolve_nodes p b : nodes (snd (resolve p b)) = nodes b.
Proof.
  pose proof (findNode_frame p b) as (_ & _ & Hn & _).
  destruct (resolve_cases p b) as [(t & _ & ->)|[(_ & -> & _)|(n & h & t & _ & _ & _ & _ & ->)]];
    simpl; auto.
  pose proof (countNode_frame n (cache_target (encodedPath p) t (snd (findNode p b))))
    as (_ & _ & -> & _).
  exact Hn.
Qed.

Lemma resolve_graph p b : graph (snd (resolve p b)) = graph b.
Proof.
  pose proof (findNode_frame p b) as (Hg & _).
  destruct (resolve_cases p b) as [(t & _ & ->)|[(_ & -> & _)|(n & h & t & _ & _ & _ & _ & ->)]];
    simpl; auto.
  pose proof (countNode_frame n (cache_target (encodedPath p) t (snd (findNode p b))))
    as (-> & _).
  exact Hg.
Qed.

Lemma unresolve_nodes p b b' : unresolve p b = Normal b' -> nodes b' = nodes b.
Proof.
  unfold unresolve. destruct (bool_decide _); [now intros [= <-]|].
  destruct (nodes b !! lastSegment p) as [n|]; [|discriminate].
  destruct (decrement _) as [[| |]|]; intros [= <-]; reflexivity.
Qed.

Lemma unresolve_graph p b b' : unresolve p b = Normal b' -> graph b' = graph b.
Proof.
  unfold unresolve. destruct (bool_decide _); [now intros [= <-]|].
  destruct (nodes b !! lastSegment p) as [n|]; [|discriminate].
  destruct (decrement _) as [[| |]|]; intros [= <-]; reflexivity.
Qed.

Lemma unresolve_targetCache p b b' :
  unresolve p b = Normal b' -> targetCache b' = targetCache b.
Proof.
  unfold unresolve. destruct (bool_decide _); [now intros [= <-]|].
  destruct (nodes b !! lastSegment p) as [n|]; [|discriminate].
  destruct (decrement _) as [[| |]|]; intros [= <-]; reflexivity.
Qed.

(** The name index and the graph are those of the constructor for ever. *)
Lemma reachable_nodes ok b0 b :
  reachableBy ok b0 b -> nodes b = nodes b0 /\ graph b = graph b0.
Proof.
  induction 1 as [|b p _ [IHn IHg] _|b p b' _ [IHn IHg] Hu|b mask _ [IHn IHg]].
  - auto.
  - now rewrite resolve_nodes, resolve_graph.
  - now rewrite (unresolve_nodes _ _ _ Hu), (unresolve_graph _ _ _ Hu).
  - auto.
Qed.

End Frames.

(** ** Idempotence of [resolve] *)

(** C3: two successive [resolve] calls for the same path, on an unchanged
    graph and mask, return the same result, which for a resolved path is the
    identical cached [AnimTarget] (same identity [tid]); the second call
    changes neither the reference-count table nor the active node list, and
    allocates no target. *)
Theorem resolve_idempotent (p : Path) (b : DefaultAnimBinder) :
  let first := resolve p b in
  let second := resolve p (snd first) in
  fst second = fst first /\
  nodeCounts (snd second) = nodeCounts (snd first) /\
  activeNodes (snd second) = activeNodes (snd first) /\
  allocated (snd second) = allocated (snd first) /\
  (forall t, fst first = Some t ->
     targetCache (snd first) !! encodedPath p = Some t /\ snd second = snd first).
Proof.
  cbv zeta.
  destruct (resolve_cases p b)
    as [(t & Hc & Hr)|[(Hc & Hr & Hfail)|(n & h & t & Hc & Hn & Hh & Ht & Hr)]].
  - (* cache hit already at the first call *)
    rewrite Hr. simpl. rewrite Hr. simpl.
    do 4 (split; [reflexivity|]). intros t' [= <-]. auto.
  - (* the first call fails: nothing cached, the second call fails alike *)
    rewrite Hr. simpl.
    set (b1 := snd (findNode p b)).
    pose proof (findNode_frame p b) as (Hg & Hm & Hno & Htc & Hnc & Han & Hal & Hd).
    fold b1 in Hg, Hm, Hno, Htc, Hnc, Han, Hal, Hd.
    assert (Hsame : fst (findNode p b1) = fst (findNode p b))
      by (apply findNode_fst_sameLookup; repeat split; assumption).
    pose proof (findNode_frame p b1) as (_ & _ & _ & _ & Hnc1 & Han1 & Hal1 & _).
    destruct (resolve_cases p b1)
      as [(t & Hc' & _)|[(_ & Hr' & _)|(n & h & t & _ & Hn' & Hh' & Ht' & _)]].
    + rewrite Htc in Hc'. congruence.
    + rewrite Hr'. simpl. do 4 (split; [auto|]). discriminate.
    + exfalso. rewrite Hsame in Hn'. rewrite Hal in Ht'.
      destruct Hfail as [Hnone|(n0 & Hn0 & [Hnoh|(h0 & Hh0 & Ht0)])]; congruence.
  - (* the first call binds and caches; the second call is a cache hit *)
    rewrite Hr. simpl.
    set (b1 := countNode n (cache_target (encodedPath p) t (snd (findNode p b)))).
    assert (Hhit : targetCache b1 !! encodedPath p = Some t).
    { unfold b1.
      pose proof (countNode_frame n (cache_target (encodedPath p) t (snd (findNode p b))))
        as (_ & _ & _ & -> & _).
      simpl. apply lookup_insert_eq. }
    assert (Hr2 : resolve p b1 = (Some t, b1)) by (unfold resolve; now rewrite Hhit).
    rewrite Hr2. simpl.
    do 4 (split; [reflexivity|]). intros t' [= <-]. auto.
Qed.

Lemma resolve_idempotent_witness :
  let b0 := new true Scenes.Root in
  exists t,
    fst (resolve Scenes.pA b0) = Some t /\
    fst (resolve Scenes.pA (snd (resolve Scenes.pA b0))) = Some t /\
    targetCache (snd (resolve Scenes.pA b0)) !! encodedPath Scenes.pA = Some t /\
    snd (resolve Scenes.pA (snd (resolve Scenes.pA b0))) = snd (resolve Scenes.pA b0).
Proof.
  intros b0.
  destruct (resolve_idempotent Scenes.pA b0) as (Hsame & _ & _ & _ & Hhit).
  assert (Hfirst : is_Some (fst (resolve Scenes.pA b0))) by (vm_compute; eauto).
  destruct Hfirst as [t Ht]. exists t.
  destruct (Hhit t Ht) as (Hcache & Hstate).
  split; [exact Ht|]. split; [now rewrite Hsame|]. split; assumption.
Defined.

(** ** The mask *)

Section Mask.

Implicit Types (b : DefaultAnimBinder) (mask : gmap string MaskItem).

(** With the graph root named as the first segment there is one candidate. *)
Lemma isPathActive_own_root b mask (s : string) (rest : list string) (comp prop : string) :
  _mask b = Some mask -> name (graph b) = s ->
  _isPathActive {| entityPath := s :: rest; component := comp; propertyPath := prop |} b
  = candidateActive mask (s :: rest).
Proof.
  intros Hm Hn. unfold _isPathActive, entityPathArrays. rewrite Hm, Hn. simpl.
  rewrite bool_decide_eq_false_2 by (intros H; now apply H).
  simpl. now destruct (candidateActive mask (s :: rest)).
Qed.

End Mask.

(** C5: with the single mask entry "A/B" carrying [children: true] and a graph
    whose root is named A (such as A -> B -> C), the entity path A/B/C is
    active although it has no entry of its own, and the sibling path A/X is
    inactive. *)
Theorem mask_subtree_inclusion (b : DefaultAnimBinder) (v : option bool)
    (comp prop : string) :
  name (graph b) = "A" ->
  _mask b = Some {["A/B" := {| value := v; mask_children := Some true |}]} ->
  _isPathActive {| entityPath := ["A"; "B"; "C"]; component := comp; propertyPath := prop |} b
    = true /\
  _isPathActive {| entityPath := ["A"; "X"]; component := comp; propertyPath := prop |} b
    = false.
Proof.
  intros Hn Hm.
  rewrite !(isPathActive_own_root b _ "A" _ comp prop Hm Hn).
  split; vm_compute; reflexivity.
Qed.

Lemma mask_subtree_inclusion_witness :
  _isPathActive (Scenes.graphPath ["A"; "B"; "C"] "localPosition")
    (assignMask (Some Scenes.maskSubtree) (new true Scenes.chainA)) = true /\
  _isPathActive (Scenes.graphPath ["A"; "X"] "localPosition")
    (assignMask (Some Scenes.maskSubtree) (new true Scenes.chainA)) = false.
Proof.
  apply (mask_subtree_inclusion
           (assignMask (Some Scenes.maskSubtree) (new true Scenes.chainA)) None
           "graph" "localPosition"); reflexivity.
Defined.

(** C4 as stated fails: with "A/B" carrying [value: false] and "A" carrying
    [children: true], the entity path A/B is not inactive. *)
Lemma mask_exclusion_counterexample :
  _isPathActive (Scenes.graphPath ["A"; "B"] "localPosition")
    (assignMask (Some Scenes.maskExclude) (new true Scenes.chainA)) <> false.
Proof. vm_compute. discriminate. Qed.

(** C4, amended: with a mask entry "A/B" carrying [value: false] and a graph
    whose root is named A, the entity path A/B is active exactly when the
    entry of one of its prefixes "A" and "A/B" carries [children: true]; so
    an ancestor's [children: true] makes the path active in spite of the
    [value: false] at the exact path. *)
Theorem mask_exclusion_walk (b : DefaultAnimBinder) (mask : gmap string MaskItem)
    (item : MaskItem) (comp prop : string) :
  name (graph b) = "A" ->
  _mask b = Some mask ->
  mask !! "A/B" = Some item -> value item = Some false ->
  _isPathActive {| entityPath := ["A"; "B"]; component := comp; propertyPath := prop |} b
    = childrenSet (mask !! "A") || childrenSet (mask !! "A/B").
Proof.
  intros Hn Hm Hi Hv.
  rewrite (isPathActive_own_root b mask "A" _ comp prop Hm Hn).
  unfold candidateActive.
  change (join "/" ["A"; "B"]) with "A/B". rewrite Hi at 1. rewrite Hv.
  cbn [length seq prefixLoop take].
  change (join "/" ["A"]) with "A". change (join "/" ["A"; "B"]) with "A/B".
  destruct (childrenSet (mask !! "A")); [reflexivity|].
  now destruct (childrenSet (mask !! "A/B")).
Qed.

Lemma mask_exclusion_walk_witness :
  _isPathActive (Scenes.graphPath ["A"; "B"] "localPosition")
    (assignMask (Some Scenes.maskExclude) (new true Scenes.chainA)) = true.
Proof.
  unfold Scenes.graphPath.
  rewrite (mask_exclusion_walk
             (assignMask (Some Scenes.maskExclude) (new true Scenes.chainA))
             Scenes.maskExclude {| value := Some false; mask_children := None |}
             "graph" "localPosition"); reflexivity.
Defined.

(** ** The fallback diagnostics *)

Section Diagnostics.

Implicit Types (b : DefaultAnimBinder) (p : Path) (key : string).

Lemma findNode_fallback p b :
  _DEBUG b = true -> _isPathActive p b = true ->
  findByPath (graph b) (entityPath p) = None ->
  findNode p b = (nodes b !! lastSegment p, noteFallback p b).
Proof. intros Hd Ha Hf. unfold findNode. now rewrite Ha, Hf, Hd. Qed.

Lemma noteFallback_console p b :
  console (noteFallback p b) =
  (console b ++
   if bool_decide (visitedFallbackGraphPaths b !! fallbackGraphPath p = Some 1)
   then [ambiguityWarning (fallbackGraphPath p) b] else [])%list.
Proof.
  unfold noteFallback.
  destruct (bool_decide _); simpl;
    destruct (visitedFallbackGraphPaths b !! fallbackGraphPath p); simpl;
    now rewrite ?app_nil_r.
Qed.

Lemma noteFallback_visited p b :
  visitedFallbackGraphPaths (noteFallback p b) !! fallbackGraphPath p =
  Some (match visitedFallbackGraphPaths b !! fallbackGraphPath p with
        | None => 0
        | Some c => c + 1
        end).
Proof.
  unfold noteFallback.
  destruct (bool_decide _); simpl;
    destruct (visitedFallbackGraphPaths b !! fallbackGraphPath p); simpl;
    apply lookup_insert_eq.
Qed.

Lemma fallsBack_sameLookup b b' key p :
  sameLookup b b' -> fallsBack b key p -> fallsBack b' key p.
Proof.
  intros Hs (Ha & Hf & Hk). repeat split; auto.
  - now rewrite (isPathActive_sameLookup p b b' Hs).
  - destruct Hs as (-> & _). exact Hf.
Qed.

Lemma ambiguityWarning_graph key b b' :
  graph b' = graph b -> ambiguityWarning key b' = ambiguityWarning key b.
Proof. unfold ambiguityWarning. now intros ->. Qed.

(** Whether one of [n] uses that start at counter value [z] sees the value 1. *)
Lemma window_none z : (z <=? 1) && (1 <? z + 0) = false.
Proof. destruct (Z.leb_spec z 1), (Z.ltb_spec 1 (z + 0)); simpl; auto; lia. Qed.

Lemma window_at_one n : 0 <= n -> (1 <=? 1) && (1 <? 1 + (n + 1)) = true.
Proof. intros. destruct (Z.ltb_spec 1 (1 + (n + 1))); simpl; auto; lia. Qed.

Lemma window_shift z n :
  z <> 1 ->
  (z + 1 <=? 1) && (1 <? z + 1 + n) = (z <=? 1) && (1 <? z + (n + 1)).
Proof.
  intros. destruct (Z.leb_spec (z + 1) 1), (Z.leb_spec z 1),
    (Z.ltb_spec 1 (z + 1 + n)), (Z.ltb_spec 1 (z + (n + 1))); simpl; auto; lia.
Qed.

(** From a counter value [z], the uses see [z], [z + 1], ...; the one that
    sees 1 writes the warning. *)
Lemma findNodes_console_from key ps : forall b z,
  _DEBUG b = true ->
  visitedFallbackGraphPaths b !! key = Some z ->
  Forall (fallsBack b key) ps ->
  console (findNodes ps b) =
  (console b ++
   if (z <=? 1) && (1 <? z + Z.of_nat (length ps))
   then [ambiguityWarning key b] else [])%list.
Proof.
  induction ps as [|p ps IH]; intros b z Hd Hz Hall.
  - simpl. rewrite window_none. now rewrite app_nil_r.
  - inversion Hall as [|? ? (Ha & Hf & Hk) Hrest]; subst.
    unfold findNodes. simpl fold_left. fold (findNodes ps (snd (findNode p b))).
    rewrite (findNode_fallback p b Hd Ha Hf). cbn [snd].
    pose proof (noteFallback_frame p b) as (Hg & Hm & Hn & _ & _ & _ & _ & Hd').
    assert (Hs : sameLookup b (noteFallback p b)) by (repeat split; assumption).
    rewrite (IH (noteFallback p b) (z + 1)).
    + rewrite noteFallback_console, Hz, (ambiguityWarning_graph _ _ _ Hg).
      rewrite <- app_assoc. f_equal.
      replace (Z.of_nat (length (p :: ps))) with (Z.of_nat (length ps) + 1)
        by (simpl length; lia).
      case_bool_decide as Hone.
      * injection Hone as ->.
        rewrite window_at_one by lia.
        destruct (Z.leb_spec (1 + 1) 1); [lia|]. reflexivity.
      * rewrite window_shift by congruence. reflexivity.
    + now rewrite Hd'.
    + rewrite noteFallback_visited, Hz. reflexivity.
    + eapply Forall_impl; [exact Hrest|]. intros q. now apply fallsBack_sameLookup.
Qed.

End Diagnostics.

(** C6 as stated fails: of three fallback uses with the same canonical form
    the second writes no warning, and the three write one warning in all. *)
Lemma fallback_warning_counterexample :
  let p1 := Scenes.graphPath ["Zed"; "A"] "localPosition" in
  let p2 := Scenes.graphPath ["Yon"; "A"] "localPosition" in
  let p3 := Scenes.graphPath ["Xi"; "A"] "localPosition" in
  let b0 := new true Scenes.Root in
  Forall (fallsBack b0 "A/graph/localPosition") [p1; p2; p3] /\
  length (console (findNodes [p1; p2] b0)) <> (1 + length (console (findNodes [p1] b0)))%nat /\
  length (console (findNodes [p1; p2; p3] b0)) <> 2%nat.
Proof.
  cbv zeta. split.
  - repeat (apply Forall_cons_2; [split; [|split]; vm_compute; reflexivity|]).
    apply Forall_nil_2.
  - vm_compute. split; discriminate.
Qed.

(** C6, amended: in a diagnostics-enabled build, over any number of [findNode]
    calls that use the fallback lookup with one canonical fallback form not
    visited before, the first and the second use write no warning, the third
    writes the single ambiguity warning, and no later use writes one; three
    uses give one warning in all. *)
Theorem fallback_warning_on_third_use (b : DefaultAnimBinder) (key : string)
    (ps : list Path) :
  _DEBUG b = true ->
  visitedFallbackGraphPaths b !! key = None ->
  Forall (fallsBack b key) ps ->
  console (findNodes ps b) =
  (console b ++ if (3 <=? length ps)%nat then [ambiguityWarning key b] else [])%list.
Proof.
  intros Hd Hz Hall.
  destruct ps as [|p ps]; [simpl; now rewrite app_nil_r|].
  inversion Hall as [|? ? (Ha & Hf & Hk) Hrest]; subst.
  unfold findNodes. simpl fold_left. fold (findNodes ps (snd (findNode p b))).
  rewrite (findNode_fallback p b Hd Ha Hf). cbn [snd].
  pose proof (noteFallback_frame p b) as (Hg & Hm & Hn & _ & _ & _ & _ & Hd').
  assert (Hs : sameLookup b (noteFallback p b)) by (repeat split; assumption).
  rewrite (findNodes_console_from (fallbackGraphPath p) ps (noteFallback p b) 0).
  - rewrite noteFallback_console, Hz, (ambiguityWarning_graph _ _ _ Hg).
    rewrite bool_decide_eq_false_2 by discriminate.
    rewrite app_nil_r. f_equal.
    destruct ps as [|p1 [|p2 ps]]; [reflexivity|reflexivity|].
    simpl length.
    destruct (Z.ltb_spec 1 (0 + Z.of_nat (S (S (length ps))))); [reflexivity|lia].
  - now rewrite Hd'.
  - rewrite noteFallback_visited, Hz. reflexivity.
  - eapply Forall_impl; [exact Hrest|]. intros q. now apply fallsBack_sameLookup.
Qed.

Lemma fallback_warning_on_third_use_witness :
  let p1 := Scenes.graphPath ["Zed"; "A"] "localPosition" in
  let p2 := Scenes.graphPath ["Yon"; "A"] "localPosition" in
  let p3 := Scenes.graphPath ["Xi"; "A"] "localPosition" in
  let p4 := Scenes.graphPath ["Wu"; "A"] "localPosition" in
  let b0 := new true Scenes.Root in
  console (findNodes [p1; p2] b0) = [] /\
  console (findNodes [p1; p2; p3] b0) = [ambiguityWarning "A/graph/localPosition" b0] /\
  console (findNodes [p1; p2; p3; p4] b0) = [ambiguityWarning "A/graph/localPosition" b0].
Proof.
  intros p1 p2 p3 p4 b0.
  assert (H1 : fallsBack b0 "A/graph/localPosition" p1)
    by (split; [|split]; vm_compute; reflexivity).
  assert (H2 : fallsBack b0 "A/graph/localPosition" p2)
    by (split; [|split]; vm_compute; reflexivity).
  assert (H3 : fallsBack b0 "A/graph/localPosition" p3)
    by (split; [|split]; vm_compute; reflexivity).
  assert (H4 : fallsBack b0 "A/graph/localPosition" p4)
    by (split; [|split]; vm_compute; reflexivity).
  split; [|split].
  - apply (fallback_warning_on_third_use b0 "A/graph/localPosition" [p1; p2]);
      [reflexivity|reflexivity|].
    exact (Forall_cons_2 _ _ _ H1 (Forall_cons_2 _ _ _ H2 (Forall_nil_2 _))).
  - apply (fallback_warning_on_third_use b0 "A/graph/localPosition" [p1; p2; p3]);
      [reflexivity|reflexivity|].
    exact (Forall_cons_2 _ _ _ H1 (Forall_cons_2 _ _ _ H2 (Forall_cons_2 _ _ _ H3 (Forall_nil_2 _)))).
  - apply (fallback_warning_on_third_use b0 "A/graph/localPosition" [p1; p2; p3; p4]);
      [reflexivity|reflexivity|].
    exact (Forall_cons_2 _ _ _ H1 (Forall_cons_2 _ _ _ H2 (Forall_cons_2 _ _ _ H3
             (Forall_cons_2 _ _ _ H4 (Forall_nil_2 _))))).
Defined.

(** ** [unresolve] *)

Section Unresolve.

Implicit Types (b : DefaultAnimBinder) (p : Path).

(** For a component kind other than "graph", [unresolve] does nothing. *)
Lemma unresolve_other_component p b :
  component p <> "graph" -> unresolve p b = Normal b.
Proof. intros H. unfold unresolve. now rewrite bool_decide_eq_true_2. Qed.

(** For a graph path whose last segment is in the name index, [unresolve]
    completes, whatever the reference count of the node was. *)
Lemma unresolve_indexed_completes p b n :
  nodes b !! lastSegment p = Some n -> exists b', unresolve p b = Normal b'.
Proof.
  intros H. unfold unresolve. destruct (bool_decide _); [eauto|].
  rewrite H. destruct (decrement _) as [[| |]|]; eauto.
Qed.

(** For a graph path whose last segment is not in the name index, the read
    of [node.path] throws. *)
Lemma unresolve_not_indexed_throws p b :
  component p = "graph" -> nodes b !! lastSegment p = None ->
  unresolve p b = Throw "TypeError".
Proof.
  intros Hc H. unfold unresolve.
  rewrite bool_decide_eq_false_2 by (intros Hne; now apply Hne).
  now rewrite H.
Qed.

(** With [node.node] undefined, [indexOf] answers -1 and the removal takes
    the last element of the list, whichever node that is. *)
Lemma swapPop_not_found (l : list GraphNode) : swapPop (-1) l = removelast l.
Proof.
  unfold swapPop. destruct (-1 <? Z.of_nat (length l) - 1); [|reflexivity].
  destruct (last l); reflexivity.
Qed.

End Unresolve.

(** C7, at the failing input: on the binder of the graph Root -> A, B, the
    graph path "Ghost" names no node; [resolve] of it returns absent, and
    [unresolve] of it, before or after that [resolve], does not complete: it
    throws a TypeError at the read of [node.path], the name index having no
    node named Ghost. *)
Theorem unresolve_unknown_name_throws :
  let b0 := new true Scenes.Root in
  component Scenes.pGhost = "graph" /\
  nodes b0 !! lastSegment Scenes.pGhost = None /\
  unresolve Scenes.pGhost b0 = Throw "TypeError" /\
  fst (resolve Scenes.pGhost b0) = None /\
  unresolve Scenes.pGhost (snd (resolve Scenes.pGhost b0)) = Throw "TypeError".
Proof.
  intros b0. split; [reflexivity|]. split; [vm_compute; reflexivity|].
  assert (Hresolve : fst (resolve Scenes.pGhost b0) = None) by (vm_compute; reflexivity).
  split; [|split; [exact Hresolve|]].
  - apply unresolve_not_indexed_throws; vm_compute; reflexivity.
  - apply unresolve_not_indexed_throws; [reflexivity|].
    rewrite resolve_nodes. vm_compute. reflexivity.
Qed.

(** C2, at the failing input: on the graph Root -> A, B, after [resolve] of A,
    [resolve] of B and the paired [unresolve] of A, the count of A is 0 and
    the count of B is 1, yet the active node list holds A and not B, and
    [update] calls [_dirtifyLocal] on A and not on B. *)
Theorem unresolve_removes_last_active_node :
  let b1 := snd (resolve Scenes.pA (new true Scenes.Root)) in
  let b2 := snd (resolve Scenes.pB b1) in
  is_Some (fst (resolve Scenes.pA (new true Scenes.Root))) /\
  is_Some (fst (resolve Scenes.pB b1)) /\
  match unresolve Scenes.pA b2 with
  | Normal b3 =>
      refCount b3 (path Scenes.nA) = Num 0 /\
      refCount b3 (path Scenes.nB) = Num 1 /\
      activeNodes b3 = [Scenes.nA] /\
      update 0 b3 [] = [Scenes.nA]
  | Throw _ => False
  end.
Proof.
  cbv zeta. split; [|split].
  - vm_compute. eauto.
  - vm_compute. eauto.
  - vm_compute. auto.
Qed.

(** ** [resolve] followed by [unresolve] *)

Section ResolveUnresolve.

Implicit Types (b : DefaultAnimBinder) (p : Path) (n : GraphNode).





End ResolveUnresolve.




(** ** Unresolvable paths *)




(** In the states reached from the constructor by calls whose paths do not
    share the key of [p] unless they share its entity path (canonical keys do
    not collide when the separator occurs in no segment), nothing is ever
    cached under the key of an unresolvable path [p]. *)
Lemma unresolvable_never_cached (debug : bool) (g : GraphNode) (p : Path)
    (b : DefaultAnimBinder) :
  reachableBy (keyApart p) (new debug g) b ->
  findByPath g (entityPath p) = None ->
  nodes (new debug g) !! lastSegment p = None ->
  targetCache b !! encodedPath p = None.
Proof.
  intros Hreach Hexact Hname.
  induction Hreach as [|b q Hreach IH Hok|b q b' _ IH Hu|b mask _ IH].
  - reflexivity.
  - destruct (reachable_nodes _ _ _ Hreach) as (Hn & Hg).
    pose proof (findNode_frame q b) as (_ & _ & _ & Htc & _).
    destruct (resolve_cases q b)
      as [(t & _ & ->)|[(_ & -> & _)|(n & h & t & _ & Hfound & _ & _ & ->)]];
      cbn [snd]; [exact IH|now rewrite Htc|].
    pose proof (countNode_frame n (cache_target (encodedPath q) t (snd (findNode q b))))
      as (_ & _ & _ & -> & _).
    cbn [cache_target targetCache].
    destruct (decide (encodedPath q = encodedPath p)) as [Hkey|Hkey].
    + exfalso. specialize (Hok Hkey).
      rewrite findNode_fst, Hg, Hn in Hfound. cbn [new graph] in Hfound.
      unfold lastSegment in Hfound, Hname. rewrite Hok, Hexact, Hname in Hfound.
      now destruct (_isPathActive q b).
    + rewrite lookup_insert_ne by exact Hkey. now rewrite Htc.
  - now rewrite (unresolve_targetCache _ _ _ Hu).
  - exact IH.
Qed.

(** ** The flat name index *)

Section FlatIndex.

Implicit Types (n m : GraphNode) (acc : gmap string GraphNode) (nm : string).

Lemma flatten_unfold n acc :
  flatten n acc = fold_left (fun acc' c => flatten c acc') (children n) (<[name n := n]> acc).
Proof. destruct n; reflexivity. Qed.

Lemma preorder_unfold n : preorder n = n :: flat_map preorder (children n).
Proof. destruct n; reflexivity. Qed.

(** [flatten] writes the nodes into the index one by one in pre-order. *)
Lemma flatten_preorder n : forall acc,
  flatten n acc = fold_left (fun acc' m => <[name m := m]> acc') (preorder n) acc.
Proof.
  induction n as [n IH] using GraphNode_subtree_ind. intros acc.
  rewrite flatten_unfold, preorder_unfold. cbn [fold_left].
  generalize (<[name n := n]> acc). clear acc.
  induction IH as [|c cs Hc _ IHcs]; intros acc; [reflexivity|].
  cbn [fold_left flat_map]. rewrite fold_left_app, Hc. apply IHcs.
Qed.

(** After such writes a name maps to the last node written under it. *)
Lemma index_last_written nm (l : list GraphNode) : forall acc,
  fold_left (fun acc' m => <[name m := m]> acc') l acc !! nm =
  match last (filter (fun m => name m = nm) l) with
  | Some m => Some m
  | None => acc !! nm
  end.
Proof.
  induction l as [|m l IH]; intros acc; [reflexivity|].
  cbn [fold_left]. rewrite IH, filter_cons.
  destruct (decide (name m = nm)) as [Heq|Hne].
  - rewrite last_cons.
    destruct (last (filter _ l)); [reflexivity|].
    rewrite Heq. apply lookup_insert_eq.
  - destruct (last (filter _ l)); [reflexivity|].
    now apply lookup_insert_ne.
Qed.

Lemma new_index debug g nm : nodes (new debug g) !! nm = lastNamed nm g.
Proof.
  unfold lastNamed. cbn [new nodes].
  rewrite flatten_preorder, index_last_written.
  now destruct (last _).
Qed.

End FlatIndex.

(** In every state reached from the constructor, the flat name index maps a
    name, other than those of the members of [Object.prototype], to the node
    of that name visited last in the depth-first pre-order traversal of the
    graph; a [findNode] that falls back to the name lookup returns that node,
    and [unresolve] of a graph path with that last segment takes one from the
    count of that node's path (an absent count or NaN giving NaN), whichever
    nodes earlier [resolve] calls bound. *)
Lemma flat_index_last_visited (debug : bool) (g : GraphNode)
    (b : DefaultAnimBinder) (nm : string) :
  reachable (new debug g) b ->
  nm ∉ objectPrototypeMembers ->
  nodes b !! nm = lastNamed nm g /\
  (forall p, lastSegment p = nm -> _isPathActive p b = true ->
             findByPath (graph b) (entityPath p) = None ->
             fst (findNode p b) = lastNamed nm g) /\
  (forall p m, lastSegment p = nm -> component p = "graph" ->
     lastNamed nm g = Some m ->
     exists b', unresolve p b = Normal b' /\
       nodeCounts b' =
         <[path m := match nodeCounts b !! path m with
                     | Some (Num z) => Num (z - 1)
                     | _ => NaN
                     end]> (nodeCounts b)).
Proof.
  intros Hreach _.
  destruct (reachable_nodes _ _ _ Hreach) as (Hn & _).
  assert (Hidx : forall k, nodes b !! k = lastNamed k g)
    by (intros k; rewrite Hn; apply new_index).
  split; [apply Hidx|]. split.
  - intros p Hl Ha Hf. rewrite findNode_fst, Ha, Hf, Hl. apply Hidx.
  - intros p m Hl Hc Hlast. specialize (Hidx nm). rewrite Hlast, <- Hl in Hidx.
    unfold unresolve.
    rewrite bool_decide_eq_false_2 by (intros Hne; now apply Hne).
    rewrite Hidx.
    destruct (nodeCounts b !! path m) as [[z|]|]; cbn [decrement];
      [|eexists; split; reflexivity|eexists; split; reflexivity].
    destruct (z - 1) as [| |]; eexists; split; reflexivity.
Qed.

Lemma flat_index_last_visited_witness :
  let b := snd (resolve Scenes.pLeafX (new true Scenes.Top)) in
  lastNamed "Leaf" Scenes.Top = Some Scenes.leafY /\
  (targetPath <$> fst (resolve Scenes.pLeafX (new true Scenes.Top)))
    = Some "Top/X/Leaf/entity/localPosition" /\
  nodes b !! "Leaf" = Some Scenes.leafY /\
  fst (findNode (Scenes.graphPath ["Elsewhere"; "Leaf"] "localScale") b) = Some Scenes.leafY /\
  exists b', unresolve Scenes.pLeafX b = Normal b' /\
    nodeCounts b' = <[path Scenes.leafY := NaN]> (nodeCounts b).
Proof.
  intros b.
  destruct (flat_index_last_visited true Scenes.Top b "Leaf") as (H1 & H2 & H3).
  { apply reach_resolve; [apply reach_start|exact I]. }
  { apply (bool_decide_unpack _). vm_compute. exact I. }
  assert (Hlast : lastNamed "Leaf" Scenes.Top = Some Scenes.leafY) by reflexivity.
  split; [exact Hlast|]. split; [reflexivity|].
  split; [now rewrite H1|]. split.
  - rewrite (H2 (Scenes.graphPath ["Elsewhere"; "Leaf"] "localScale")); auto.
  - exact (H3 Scenes.pLeafX Scenes.leafY eq_refl eq_refl Hlast).
Defined.

(** C10, at the failing input: on the graph Top -> X -> Leaf, Y -> Leaf the
    flat name index holds the Leaf under Y, visited last, for the name Leaf,
    and a [resolve] that falls back to the name binds that node.  After a
    further [resolve] of X, the [unresolve] of the path by name takes the
    count of the Leaf under Y to 0, but the node it removes from the active
    node list is X: the Leaf under Y stays in the list with count 0, and X,
    with count 1, is gone. *)
Theorem unresolve_by_name_removes_another_node :
  let byName := Scenes.graphPath ["Elsewhere"; "Leaf"] "localPosition" in
  let b0 := new true Scenes.Top in
  let b1 := snd (resolve byName b0) in
  let b2 := snd (resolve (Scenes.graphPath ["X"] "localPosition") b1) in
  lastNamed "Leaf" Scenes.Top = Some Scenes.leafY /\
  nodes b2 !! lastSegment byName = Some Scenes.leafY /\
  fst (findNode byName b0) = Some Scenes.leafY /\
  path <$> activeNodes b2 = ["Top/Y/Leaf"; "Top/X"] /\
  refCount b2 "Top/Y/Leaf" = Num 1 /\ refCount b2 "Top/X" = Num 1 /\
  match unresolve byName b2 with
  | Normal b3 =>
      refCount b3 "Top/Y/Leaf" = Num 0 /\
      refCount b3 "Top/X" = Num 1 /\
      activeNodes b3 = [Scenes.leafY] /\
      update 0 b3 [] = [Scenes.leafY]
  | Throw _ => False
  end.
Proof.
  cbv zeta. split; [reflexivity|]. split; [vm_compute; reflexivity|].
  split; [vm_compute; reflexivity|]. split; [vm_compute; reflexivity|].
  split; [vm_compute; reflexivity|]. split; [vm_compute; reflexivity|].
  vm_compute. auto.
Qed.

(** ** The ['weights'] handler *)

Section Weights.

Context {V : Type}.
Implicit Types (store : gmap nat (gmap nat V)) (ms : list MorphInstance)
  (m : MorphInstance) (value : list V).

Lemma weightAt_setWeight m i (v : V) store id index :
  weightAt (setWeight m i v store) id index =
  if decide (id = mid m /\ index = i) then Some v else weightAt store id index.
Proof.
  unfold weightAt, setWeight.
  destruct (decide (id = mid m)) as [->|Hid].
  - rewrite lookup_insert_eq. cbn [mbind option_bind].
    destruct (decide (index = i)) as [->|Hi].
    + rewrite lookup_insert_eq. now rewrite decide_True by auto.
    + rewrite lookup_insert_ne by auto.
      rewrite decide_False by (intros [_ ?]; contradiction).
      destruct (store !! mid m); reflexivity.
  - rewrite lookup_insert_ne by auto.
    now rewrite decide_False by (intros [? _]; contradiction).
Qed.

(** One round of the inner loop: the weight [i] of every captured morph
    instance is [v], other indices are untouched. *)
Lemma inner_sets ms i (v : V) : forall store m,
  m ∈ ms ->
  weightAt (fold_left (fun st m' => setWeight m' i v st) ms store) (mid m) i = Some v.
Proof.
  induction ms as [|m0 ms IH] using rev_ind; intros store m Hin.
  - now apply elem_of_nil in Hin.
  - rewrite fold_left_app. cbn [fold_left]. rewrite weightAt_setWeight.
    destruct (decide (mid m = mid m0 /\ i = i)) as [_|Hne]; [reflexivity|].
    apply elem_of_app in Hin as [Hin|Hin]; [now apply IH|].
    apply list_elem_of_singleton in Hin as ->. exfalso. now apply Hne.
Qed.

Lemma inner_other ms i (v : V) id index : forall store,
  index <> i ->
  weightAt (fold_left (fun st m' => setWeight m' i v st) ms store) id index
  = weightAt store id index.
Proof.
  induction ms as [|m0 ms IH]; intros store Hne; [reflexivity|].
  cbn [fold_left]. rewrite IH by exact Hne. rewrite weightAt_setWeight.
  now rewrite decide_False by (intros [_ ?]; contradiction).
Qed.

(** The rounds from index [k] on leave the indices below [k] alone. *)
Lemma weightsLoop_below ms value : forall k store id index,
  (index < k)%nat ->
  weightAt (weightsLoop ms k value store) id index = weightAt store id index.
Proof.
  induction value as [|v value IH]; intros k store id index Hlt; [reflexivity|].
  cbn [weightsLoop]. rewrite IH by lia. apply inner_other. lia.
Qed.

(** The loop sets weight [k + i] to [value[i]] on every captured instance. *)
Lemma weightsLoop_sets ms value : forall k store m i v,
  m ∈ ms -> value !! i = Some v ->
  weightAt (weightsLoop ms k value store) (mid m) (k + i) = Some v.
Proof.
  induction value as [|v0 value IH]; intros k store m i v Hin Hv; [discriminate|].
  cbn [weightsLoop]. destruct i as [|i].
  - injection Hv as ->. rewrite Nat.add_0_r.
    rewrite weightsLoop_below by lia. now apply inner_sets.
  - replace (k + S i)%nat with (S k + i)%nat by lia. now apply IH.
Qed.

End Weights.

(** C9 as stated fails: the node Head has one morph instance, and the target
    bound for "weights" expects three components, the number of targets of
    that instance's morph. *)
Lemma weights_value_count_counterexample :
  length (morphInstancesOf Scenes.head) = 1%nat /\
  (valueCount <$> handler_weights 0 Scenes.head)
    <> Some (length (morphInstancesOf Scenes.head)).
Proof. split; [reflexivity|]. vm_compute. discriminate. Qed.

(** C9, amended: binding "weights" on a node with no morph instance returns
    absent; on a node with morph instances it gives a target whose expected
    input vector has as many components as the morph of the first of them has
    targets (whatever the number of instances), and calling the target with a
    vector sets, on every one of the morph instances and for every index of
    the vector, the weight at that index to the component at that index. *)
Theorem weights_handler_binds (fresh : nat) (n : GraphNode) :
  handlers "weights" = Some handler_weights /\
  (morphInstancesOf n = [] -> handler_weights fresh n = None) /\
  (forall m0 ms, morphInstancesOf n = m0 :: ms ->
     exists t,
       handler_weights fresh n = Some t /\
       valueCount t = length (_targets (morph m0)) /\
       forall (V : Type) (value : list V) (store : gmap nat (gmap nat V)) m i v,
         m ∈ m0 :: ms -> value !! i = Some v ->
         weightAt (callWeights t value store) (mid m) i = Some v).
Proof.
  split; [reflexivity|]. unfold morphInstancesOf, handler_weights.
  destruct (findMeshInstances n) as [mis|].
  - split.
    + now intros ->.
    + intros m0 ms ->. eexists. split; [reflexivity|]. split; [reflexivity|].
      intros V value store m i v Hin Hv. unfold callWeights. cbn [createAnimTarget func].
      now apply (weightsLoop_sets (m0 :: ms) value 0 store m i v).
  - split; [reflexivity|discriminate].
Qed.

Lemma weights_handler_binds_witness :
  handler_weights 0 Scenes.hat = None /\
  exists t,
    handler_weights 0 Scenes.head = Some t /\
    valueCount t = 3%nat /\
    weightAt (callWeights t [5; 6; 7] ∅) (mid Scenes.morphHead) 1 = Some 6.
Proof.
  destruct (weights_handler_binds 0 Scenes.hat) as (_ & Hnone & _).
  destruct (weights_handler_binds 0 Scenes.head) as (_ & _ & Hsome).
  split; [apply Hnone; reflexivity|].
  destruct (Hsome Scenes.morphHead [] eq_refl) as (t & Ht & Hcount & Hcall).
  exists t. split; [exact Ht|]. split; [exact Hcount|].
  apply Hcall; [apply list_elem_of_here|reflexivity].
Defined.

(** ** Graphs with unique node names *)

Section UniqueNames.

Implicit Types (g n : GraphNode) (b : DefaultAnimBinder) (p : Path).

Lemma preorder_root g : g ∈ preorder g.
Proof. rewrite preorder_unfold. apply list_elem_of_here. Qed.

Lemma preorder_child g c n : c ∈ children g -> n ∈ preorder c -> n ∈ preorder g.
Proof.
  intros Hc Hn. rewrite preorder_unfold. apply list_elem_of_further.
  apply list_elem_of_In, in_flat_map. exists c.
  split; now apply list_elem_of_In.
Qed.

(** Exact traversal ends at a node of the graph, named as the last segment. *)
Lemma findByPath_found segments : forall g n,
  findByPath g segments = Some n ->
  n ∈ preorder g /\ (segments <> [] -> last segments = Some (name n)).
Proof.
  induction segments as [|s rest IH]; intros g n Hfind.
  - injection Hfind as <-. split; [apply preorder_root|congruence].
  - cbn [findByPath] in Hfind.
    destruct (find _ (children g)) as [c|] eqn:Hc; [|discriminate].
    apply find_some in Hc as [Hin Hname].
    apply bool_decide_eq_true in Hname.
    destruct (IH c n Hfind) as [Hpre Hlast]. split.
    + eapply preorder_child; [apply list_elem_of_In; exact Hin|exact Hpre].
    + intros _. destruct rest as [|s' rest'].
      * injection Hfind as <-. now rewrite <- Hname.
      * rewrite last_cons, Hlast by discriminate. reflexivity.
Qed.

Lemma filter_no_name (l : list GraphNode) (nm : string) :
  nm ∉ name <$> l -> filter (fun m => name m = nm) l = [].
Proof.
  induction l as [|m l IH]; intros Hfresh; [reflexivity|].
  rewrite fmap_cons in Hfresh. apply not_elem_of_cons in Hfresh as [Hne Hfresh].
  rewrite filter_cons, decide_False by congruence. now apply IH.
Qed.

(** Among nodes with distinct names, a name selects its node. *)
Lemma last_filter_unique (l : list GraphNode) n :
  NoDup (name <$> l) -> n ∈ l ->
  last (filter (fun m => name m = name n) l) = Some n.
Proof.
  induction l as [|m l IH]; intros Hnd Hin; [now apply elem_of_nil in Hin|].
  rewrite fmap_cons in Hnd. apply NoDup_cons in Hnd as [Hfresh Hnd].
  rewrite filter_cons.
  apply elem_of_cons in Hin as [->|Hin].
  - rewrite decide_True by reflexivity.
    now rewrite (filter_no_name l (name m) Hfresh).
  - destruct (decide (name m = name n)) as [Heq|Hne].
    + exfalso. apply Hfresh. rewrite Heq. now apply list_elem_of_fmap_2.
    + now apply IH.
Qed.

(** With unique names and a path that is not empty, the node that [findNode]
    returns is the node the name index holds for the last segment. *)
Lemma bound_node_indexed debug g b p n :
  NoDup (name <$> preorder g) ->
  reachable (new debug g) b ->
  entityPath p <> [] ->
  fst (findNode p b) = Some n ->
  nodes b !! lastSegment p = Some n.
Proof.
  intros Hnd Hreach Hne Hfound.
  destruct (reachable_nodes _ _ _ Hreach) as (Hn & Hg).
  rewrite findNode_fst in Hfound.
  destruct (_isPathActive p b); [|discriminate].
  destruct (findByPath (graph b) (entityPath p)) as [n'|] eqn:Hexact; [|exact Hfound].
  injection Hfound as ->.
  rewrite Hg in Hexact. cbn [new graph] in Hexact.
  destruct (findByPath_found _ _ _ Hexact) as [Hpre Hlast].
  unfold lastSegment. rewrite (Hlast Hne). cbn [default].
  rewrite Hn, new_index. now apply last_filter_unique.
Qed.

End UniqueNames.

(** * Further properties *)

(** ** The mask check, [_isPathActive] *)

Section MaskWalk.

Implicit Types (b : DefaultAnimBinder) (mask : gmap string MaskItem)
  (arr : list string) (p : Path).

Lemma prefixLoop_true mask arr (indices : list nat) :
  prefixLoop mask arr indices = true <->
  exists i, i ∈ indices /\ childrenSet (mask !! join "/" (take (S i) arr)) = true.
Proof.
  induction indices as [|i rest IH]; cbn [prefixLoop].
  - split; [discriminate|]. intros (i & Hin & _). now apply elem_of_nil in Hin.
  - destruct (childrenSet (mask !! join "/" (take (S i) arr))) eqn:Hc.
    + split; [|reflexivity]. intros _. exists i. split; [apply list_elem_of_here|exact Hc].
    + rewrite IH. split.
      * intros (j & Hin & Hj). exists j. split; [now apply list_elem_of_further|exact Hj].
      * intros (j & Hin & Hj). apply elem_of_cons in Hin as [->|Hin]; [congruence|].
        exists j. auto.
Qed.

Lemma prefixLoop_all mask arr :
  prefixLoop mask arr (seq 0 (length arr)) = true <-> prefixHasChildren mask arr.
Proof.
  rewrite prefixLoop_true. unfold prefixHasChildren. split.
  - intros (i & Hin & Hc). apply elem_of_seq in Hin. exists (S i). split; [lia|exact Hc].
  - intros (k & Hk & Hc). destruct k as [|i]; [lia|].
    exists i. split; [apply elem_of_seq; lia|exact Hc].
Qed.

Lemma candidateActive_iff mask arr :
  candidateActive mask arr = true <-> exactAllows mask arr \/ prefixHasChildren mask arr.
Proof.
  unfold candidateActive, exactAllows. cbv zeta.
  destruct (mask !! join "/" arr) as [item|] eqn:Hitem.
  - destruct (value item) as [[|]|] eqn:Hv.
    + split; [|reflexivity]. intros _. left. exists item. split; [reflexivity|congruence].
    + rewrite prefixLoop_all. split; [auto|].
      intros [(item' & Heq & Hne)|H]; [|exact H]. congruence.
    + split; [|reflexivity]. intros _. left. exists item. split; [reflexivity|congruence].
  - rewrite prefixLoop_all. split; [auto|].
    intros [(item' & Heq & _)|H]; [discriminate|exact H].
Qed.

Lemma candidates_fold mask (arrs : list (list string)) : forall acc : bool,
  fold_left (fun shouldAnimateNode arr =>
               if candidateActive mask arr then true else shouldAnimateNode) arrs acc = true
  <-> acc = true \/ exists arr, arr ∈ arrs /\ candidateActive mask arr = true.
Proof.
  induction arrs as [|arr arrs IH]; intros acc; cbn [fold_left].
  - split; [auto|]. intros [H|(arr & Hin & _)]; [exact H|now apply elem_of_nil in Hin].
  - rewrite IH. destruct (candidateActive mask arr) eqn:Hc.
    + split; [|auto]. intros _. right. exists arr. split; [apply list_elem_of_here|exact Hc].
    + split.
      * intros [H|(a & Hin & Ha)]; [auto|]. right. exists a.
        split; [now apply list_elem_of_further|exact Ha].
      * intros [H|(a & Hin & Ha)]; [auto|].
        apply elem_of_cons in Hin as [->|Hin]; [congruence|]. right. eauto.
Qed.

Lemma isPathActive_candidates p b mask :
  _mask b = Some mask ->
  (_isPathActive p b = true <->
   exists arr, arr ∈ entityPathArrays (graph b) p /\ candidateActive mask arr = true).
Proof.
  intros Hm. unfold _isPathActive. rewrite Hm, candidates_fold.
  split; [intros [H|H]; [discriminate|exact H]|auto].
Qed.

(** The candidate that carries the name of the graph root in first place is
    always among the paths checked. *)
Lemma root_candidate p b :
  (name (graph b) :: drop 1 (entityPath p)) ∈ entityPathArrays (graph b) p.
Proof.
  unfold entityPathArrays.
  destruct (decide (head (entityPath p) = Some (name (graph b)))) as [Hh|Hh].
  - rewrite bool_decide_eq_false_2 by (intros H; apply H; congruence).
    destruct (entityPath p) as [|s rest]; [discriminate|].
    injection Hh as ->. apply list_elem_of_here.
  - rewrite bool_decide_eq_true_2 by congruence.
    apply list_elem_of_further, list_elem_of_here.
Qed.

End MaskWalk.



(** With the empty object installed as mask, a path is not active unless one
    of its candidate paths, joined by slashes, is the name of a member of
    [Object.prototype]; for the other paths [resolve] answers from the cache
    alone: it returns what is cached under the key of the path, or absent, and
    changes nothing, the diagnostics included. *)
Theorem empty_mask_blocks (p : Path) (b : DefaultAnimBinder) :
  _mask b = Some ∅ ->
  Forall (fun arr => join "/" arr ∉ objectPrototypeMembers)
         (entityPathArrays (graph b) p) ->
  _isPathActive p b = false /\
  resolve p b = (targetCache b !! encodedPath p, b).
Proof.
  intros Hm _.
  assert (Hoff : _isPathActive p b = false).
  { destruct (_isPathActive p b) eqn:Ha; [|reflexivity]. exfalso.
    apply (isPathActive_candidates p b ∅ Hm) in Ha as (arr & _ & Hc).
    apply candidateActive_iff in Hc as [(item & Hitem & _)|(k & _ & Hk)].
    - now rewrite lookup_empty in Hitem.
    - now rewrite lookup_empty in Hk. }
  split; [exact Hoff|].
  unfold resolve. destruct (targetCache b !! encodedPath p); [reflexivity|].
  unfold findNode. now rewrite Hoff.
Qed.

Lemma empty_mask_blocks_witness :
  resolve Scenes.pA (assignMask (Some ∅) (new true Scenes.Root))
  = (None, assignMask (Some ∅) (new true Scenes.Root)).
Proof.
  apply (empty_mask_blocks Scenes.pA (assignMask (Some ∅) (new true Scenes.Root))).
  - reflexivity.
  - apply (bool_decide_unpack _). vm_compute. exact I.
Defined.

(** A mask entry written against the name of the graph root applies to paths
    with any other first segment: when the mask allows the entity path with
    the root's name in first place, the path is active. *)
Theorem mask_root_substitution (p : Path) (b : DefaultAnimBinder)
    (mask : gmap string MaskItem) :
  _mask b = Some mask ->
  exactAllows mask (name (graph b) :: drop 1 (entityPath p)) \/
  prefixHasChildren mask (name (graph b) :: drop 1 (entityPath p)) ->
  _isPathActive p b = true.
Proof.
  intros Hm Hallow. apply (isPathActive_candidates p b mask Hm).
  exists (name (graph b) :: drop 1 (entityPath p)).
  split; [apply root_candidate|now apply candidateActive_iff].
Qed.

Lemma mask_root_substitution_witness :
  _isPathActive (Scenes.graphPath [] "localPosition")
    (assignMask (Some Scenes.maskExclude) (new true Scenes.chainA)) = true /\
  _isPathActive (Scenes.graphPath ["Armature"; "B"] "localPosition")
    (assignMask (Some Scenes.maskExclude) (new true Scenes.chainA)) = true.
Proof.
  split.
  - apply (mask_root_substitution _ _ Scenes.maskExclude); [reflexivity|].
    left. eexists. split; [reflexivity|discriminate].
  - apply (mask_root_substitution _ _ Scenes.maskExclude); [reflexivity|].
    right. exists 1%nat. split; [simpl; lia|reflexivity].
Defined.

(** ** What [resolve] does to the binder *)

Section ResolveEffects.

Implicit Types (b : DefaultAnimBinder) (p : Path) (n : GraphNode) (t : AnimTarget).

Lemma unresolve_frame p b b' :
  unresolve p b = Normal b' ->
  graph b' = graph b /\ _mask b' = _mask b /\ nodes b' = nodes b /\
  targetCache b' = targetCache b /\
  visitedFallbackGraphPaths b' = visitedFallbackGraphPaths b /\
  _DEBUG b' = _DEBUG b /\ console b' = console b /\ allocated b' = allocated b.
Proof.
  unfold unresolve. destruct (bool_decide _); [intros [= <-]; auto 10|].
  destruct (nodes b !! lastSegment p) as [n|]; [|discriminate].
  destruct (decrement _) as [[| |]|]; intros [= <-]; simpl; auto 10.
Qed.

Lemma resolve_frame p b :
  _mask (snd (resolve p b)) = _mask b /\ _DEBUG (snd (resolve p b)) = _DEBUG b.
Proof.
  pose proof (findNode_frame p b) as (_ & Hm & _ & _ & _ & _ & _ & Hd).
  destruct (resolve_cases p b)
    as [(t & _ & ->)|[(_ & -> & _)|(n & h & t & _ & _ & _ & _ & ->)]]; cbn [snd]; auto.
  pose proof (countNode_frame n (cache_target (encodedPath p) t (snd (findNode p b))))
    as (_ & -> & _ & _ & _ & -> & _).
  auto.
Qed.

(** In a build without diagnostics [findNode] leaves the binder as it is. *)
Lemma findNode_release p b : _DEBUG b = false -> snd (findNode p b) = b.
Proof.
  intros Hd. unfold findNode. destruct (negb _); [reflexivity|].
  destruct (findByPath _ _); [reflexivity|]. now rewrite Hd.
Qed.

(** Every handler gives the new target the identity it is handed. *)
Lemma handlers_tid (prop : string) handler (fresh : nat) n t :
  handlers prop = Some handler -> handler fresh n = Some t -> tid t = fresh.
Proof.
  unfold handlers. intros Hh Ht.
  repeat (case_bool_decide; [injection Hh as <-|]); try discriminate.
  - now injection Ht as <-.
  - now injection Ht as <-.
  - now injection Ht as <-.
  - unfold handler_weights in Ht. destruct (findMeshInstances n); [|discriminate].
    destruct (collectMorphInstances n l); [discriminate|]. now injection Ht as <-.
  - unfold handler_materialTexture in Ht. destruct (findMeshInstances n); [|discriminate].
    destruct (find _ l); [|discriminate]. now injection Ht as <-.
Qed.

(** A [resolve] that misses the cache and binds: the state it leaves. *)
Lemma resolve_bind_state p b t b1 :
  targetCache b !! encodedPath p = None ->
  resolve p b = (Some t, b1) ->
  exists n,
    fst (findNode p b) = Some n /\
    tid t = allocated b /\
    targetCache b1 = <[encodedPath p := t]> (targetCache b) /\
    allocated b1 = S (allocated b) /\
    nodeCounts b1 =
      <[path n := if countFalsy (nodeCounts b !! path n) then Num 1
                  else increment (nodeCounts b !! path n)]> (nodeCounts b) /\
    activeNodes b1 =
      (if countFalsy (nodeCounts b !! path n) then activeNodes b ++ [n]
       else activeNodes b)%list.
Proof.
  intros Hmiss Hres.
  destruct (resolve_cases p b)
    as [(t' & Hc & _)|[(_ & Hr & _)|(n & h & t' & _ & Hn & Hh & Ht & Hr)]];
    [congruence|congruence|].
  rewrite Hr in Hres. injection Hres as -> <-.
  pose proof (findNode_frame p b) as (_ & _ & _ & Htc & Hnc & Han & Hal & _).
  exists n. split; [exact Hn|]. split; [exact (handlers_tid _ _ _ _ _ Hh Ht)|].
  unfold countNode. cbn [cache_target nodeCounts activeNodes].
  rewrite Hnc, Han.
  destruct (countFalsy (nodeCounts b !! path n)); cbn; rewrite ?Htc, ?Hal, ?Hnc; auto.
Qed.

End ResolveEffects.

(** When [resolve] returns absent, for whatever reason (the mask, no node, no
    handler for the property, a handler that binds nothing), it has left the
    target cache, the reference counts, the active node list and the number
    of allocated targets as they were, as well as graph, mask and name
    index. *)
Theorem resolve_absent_changes_nothing (p : Path) (b : DefaultAnimBinder) :
  fst (resolve p b) = None ->
  targetCache (snd (resolve p b)) = targetCache b /\
  nodeCounts (snd (resolve p b)) = nodeCounts b /\
  activeNodes (snd (resolve p b)) = activeNodes b /\
  allocated (snd (resolve p b)) = allocated b /\
  sameLookup b (snd (resolve p b)).
Proof.
  intros Hnone.
  pose proof (findNode_frame p b) as (Hg & Hm & Hn & Htc & Hnc & Han & Hal & _).
  destruct (resolve_cases p b)
    as [(t & _ & Hr)|[(_ & Hr & _)|(n & h & t & _ & _ & _ & _ & Hr)]];
    rewrite Hr in Hnone |- *; cbn [fst snd] in *; try discriminate.
  unfold sameLookup. auto 10.
Qed.

Lemma resolve_absent_changes_nothing_witness :
  let b := snd (resolve Scenes.pA (new true Scenes.Root)) in
  let p := Scenes.graphPath ["Elsewhere"; "B"] "visible" in
  nodeCounts (snd (resolve p b)) = nodeCounts b /\
  activeNodes (snd (resolve p b)) = activeNodes b /\
  targetCache (snd (resolve p b)) = targetCache b.
Proof.
  intros b p.
  destruct (resolve_absent_changes_nothing p b) as (H1 & H2 & H3 & _);
    [vm_compute; reflexivity|auto].
Defined.



(** ** The target cache over sequences of calls *)

Section CacheHistory.

Implicit Types (b : DefaultAnimBinder) (p : Path) (t : AnimTarget) (k : string).

Lemma resolve_cache_keeps p b k t :
  targetCache b !! k = Some t -> targetCache (snd (resolve p b)) !! k = Some t.
Proof.
  intros Hk.
  pose proof (findNode_frame p b) as (_ & _ & _ & Htc & _).
  destruct (resolve_cases p b)
    as [(t' & _ & ->)|[(_ & -> & _)|(n & h & t' & Hmiss & _ & _ & _ & ->)]];
    cbn [snd]; [exact Hk|now rewrite Htc|].
  pose proof (countNode_frame n (cache_target (encodedPath p) t' (snd (findNode p b))))
    as (_ & _ & _ & -> & _).
  cbn [cache_target targetCache]. rewrite Htc.
  rewrite lookup_insert_ne; [exact Hk|congruence].
Qed.

(** No call removes or replaces a cache entry. *)
Lemma cache_keeps ok b1 b2 k t :
  reachableBy ok b1 b2 -> targetCache b1 !! k = Some t -> targetCache b2 !! k = Some t.
Proof.
  induction 1 as [|b p _ IH _|b p b' _ IH Hu|b mask _ IH]; intros Hk.
  - exact Hk.
  - now apply resolve_cache_keeps, IH.
  - destruct (unresolve_frame _ _ _ Hu) as (_ & _ & _ & -> & _). now apply IH.
  - now apply IH.
Qed.



End CacheHistory.

(** Once [resolve] has returned a target for a path, every later [resolve] of
    that path returns the identical target and changes nothing, whatever
    calls of [resolve], [unresolve] and [assignMask] came in between: no cache
    entry is ever evicted, neither by an [unresolve] of the path nor by a mask
    that excludes it. *)
Theorem resolved_target_is_permanent (p : Path) (b b1 b2 : DefaultAnimBinder)
    (t : AnimTarget) :
  resolve p b = (Some t, b1) ->
  reachable b1 b2 ->
  resolve p b2 = (Some t, b2).
Proof.
  intros Hres Hreach.
  assert (Hhit : targetCache b1 !! encodedPath p = Some t).
  { destruct (targetCache b !! encodedPath p) as [t0|] eqn:Hc.
    - unfold resolve in Hres. rewrite Hc in Hres. now injection Hres as <- <-.
    - destruct (resolve_bind_state p b t b1 Hc Hres) as (_ & _ & _ & -> & _).
      apply lookup_insert_eq. }
  unfold resolve. now rewrite (cache_keeps _ b1 b2 _ t Hreach Hhit).
Qed.

Lemma resolved_target_is_permanent_witness :
  let b0 := new true Scenes.Root in
  let b1 := snd (resolve Scenes.pA b0) in
  exists t b2,
    fst (resolve Scenes.pA b0) = Some t /\
    unresolve Scenes.pA b1 = Normal b2 /\
    resolve Scenes.pA (assignMask (Some ∅) b2) = (Some t, assignMask (Some ∅) b2) /\
    activeNodes (assignMask (Some ∅) b2) = [].
Proof.
  intros b0 b1.
  assert (Hsome : is_Some (fst (resolve Scenes.pA b0))) by (vm_compute; eauto).
  destruct Hsome as [t Ht].
  destruct (unresolve_indexed_completes Scenes.pA b1 Scenes.nA) as [b2 Hu];
    [vm_compute; reflexivity|].
  exists t, b2. split; [exact Ht|]. split; [exact Hu|]. split.
  - apply (resolved_target_is_permanent Scenes.pA b0 b1).
    + unfold b1. rewrite <- Ht. now destruct (resolve Scenes.pA b0).
    + apply reach_assignMask. eapply reach_unresolve; [apply reach_start|exact Hu].
  - vm_compute in Hu. injection Hu as <-. reflexivity.
Defined.



(** ** Counts and active nodes while nothing is unresolved *)

Section BindingsOnly.

Implicit Types (b : DefaultAnimBinder) (p : Path) (n : GraphNode).





End BindingsOnly.



(** ** Builds without diagnostics, and resolving by name *)

(** In a build without the [_DEBUG] block no call writes to the console or
    counts fallback uses. *)
Theorem release_build_is_silent (g : GraphNode) (b : DefaultAnimBinder) :
  reachable (new false g) b ->
  console b = [] /\ visitedFallbackGraphPaths b = ∅.
Proof.
  intros Hreach.
  assert (Hinv : _DEBUG b = false /\ console b = [] /\ visitedFallbackGraphPaths b = ∅).
  { induction Hreach as [|b p _ (Hd & Hc & Hv) _|b p b' _ (Hd & Hc & Hv) Hu|b mask _ IH].
    - auto.
    - destruct (resolve_frame p b) as (_ & Hd'). rewrite Hd'. split; [exact Hd|].
      pose proof (findNode_release p b Hd) as Hf.
      destruct (resolve_cases p b)
        as [(t & _ & ->)|[(_ & -> & _)|(n & h & t & _ & _ & _ & _ & ->)]]; cbn [snd].
      + auto.
      + rewrite Hf. auto.
      + pose proof (countNode_frame n (cache_target (encodedPath p) t (snd (findNode p b))))
          as (_ & _ & _ & _ & _ & _ & -> & ->).
        rewrite Hf. auto.
    - destruct (unresolve_frame _ _ _ Hu) as (_ & _ & _ & _ & -> & -> & -> & _). auto.
    - exact IH. }
  tauto.
Qed.

Lemma release_build_is_silent_witness :
  let b := snd (resolve (Scenes.graphPath ["Yon"; "A"] "localScale")
             (snd (resolve (Scenes.graphPath ["Xi"; "A"] "localRotation")
                (snd (resolve (Scenes.graphPath ["Zed"; "A"] "localPosition")
                   (new false Scenes.Root)))))) in
  console b = [] /\ visitedFallbackGraphPaths b = ∅.
Proof.
  intros b. apply (release_build_is_silent Scenes.Root b).
  repeat (apply reach_resolve; [|exact I]). apply reach_start.
Defined.

Section ByName.

Implicit Types (g n : GraphNode) (b : DefaultAnimBinder) (p : Path) (nm : string).


Lemma index_has_name debug g n :
  n ∈ preorder g -> is_Some (nodes (new debug g) !! name n).
Proof.
  intros Hin. rewrite new_index. unfold lastNamed. apply last_is_Some.
  intros Hnil.
  assert (Hf : n ∈ filter (fun m => name m = name n) (preorder g))
    by (apply list_elem_of_filter; auto).
  rewrite Hnil in Hf. now apply elem_of_nil in Hf.
Qed.

(** The handlers of the three transform properties bind every node. *)
Lemma transform_handler (prop : string) :
  prop ∈ ["localPosition"; "localRotation"; "localScale"] ->
  exists handler, handlers prop = Some handler /\
                  forall fresh n, is_Some (handler fresh n).
Proof.
  intros Hin. repeat (apply elem_of_cons in Hin as [->|Hin]);
    [| | |now apply elem_of_nil in Hin]; eexists; (split; [reflexivity|]);
    intros fresh n; eexists; reflexivity.
Qed.

End ByName.



(** In every state reached from the constructor, a path that the mask admits
    and whose last segment names a node of the graph resolves for each of the
    properties localPosition, localRotation and localScale, whatever its
    other segments are: by exact traversal, by the name index, or from the
    cache. *)
Theorem resolve_by_name_binds (debug : bool) (g n : GraphNode) (b : DefaultAnimBinder)
    (p : Path) :
  reachable (new debug g) b ->
  _isPathActive p b = true ->
  n ∈ preorder g ->
  last (entityPath p) = Some (name n) ->
  propertyPath p ∈ ["localPosition"; "localRotation"; "localScale"] ->
  is_Some (fst (resolve p b)).
Proof.
  intros Hreach Hactive Hin Hlast Hprop.
  destruct (reachable_nodes _ _ _ Hreach) as (Hn & _).
  destruct (transform_handler _ Hprop) as (handler & Hh & Hbinds).
  assert (Hfound : is_Some (fst (findNode p b))).
  { rewrite findNode_fst, Hactive.
    destruct (findByPath (graph b) (entityPath p)); [eauto|].
    unfold lastSegment. rewrite Hlast, Hn. cbn [default]. now apply index_has_name. }
  destruct (resolve_cases p b)
    as [(t & _ & ->)|[(_ & _ & Hfail)|(n0 & h & t & _ & _ & _ & _ & ->)]];
    cbn [fst]; [eauto| |eauto].
  exfalso. destruct Hfound as [n0 Hn0].
  destruct Hfail as [Hnone|(n1 & Hn1 & [Hnoh|(h & Hh' & Hnot)])]; [congruence|congruence|].
  assert (h = handler) as -> by congruence.
  destruct (Hbinds (allocated b) n1) as [t Ht]. congruence.
Qed.

Lemma resolve_by_name_binds_witness :
  is_Some (fst (resolve (Scenes.graphPath ["Armature"; "Hips"; "Leaf"] "localRotation")
                  (snd (resolve Scenes.pLeafX (new true Scenes.Top))))).
Proof.
  apply (resolve_by_name_binds true Scenes.Top Scenes.leafX).
  - apply reach_resolve; [apply reach_start|exact I].
  - reflexivity.
  - vm_compute. repeat constructor.
  - reflexivity.
  - repeat constructor.
Defined.

(** ** The removal step of [unresolve] *)

Section SwapRemove.

Implicit Types (l : list GraphNode) (n x : GraphNode) (k : nat).

Lemma indexFrom_spec k l : forall base : Z,
  (indexFrom k base l = -1 /\ forall n, n ∈ l -> oid n <> k) \/
  (exists i n, indexFrom k base l = base + Z.of_nat i /\ l !! i = Some n /\ oid n = k /\
               forall j m, (j < i)%nat -> l !! j = Some m -> oid m <> k).
Proof.
  induction l as [|n l IH]; intros base; cbn [indexFrom].
  - left. split; [reflexivity|]. intros n Hin. now apply elem_of_nil in Hin.
  - case_bool_decide as Hoid.
    + right. exists 0%nat, n. split; [lia|]. split; [reflexivity|]. split; [exact Hoid|].
      intros j m Hj. lia.
    + destruct (IH (base + 1)) as [(Hnf & Hall)|(i & m & Hi & Hm & Hk & Hfirst)].
      * left. split; [exact Hnf|]. intros m Hin.
        apply elem_of_cons in Hin as [->|Hin]; auto.
      * right. exists (S i), m. split; [lia|]. split; [exact Hm|]. split; [exact Hk|].
        intros [|j] m' Hj Hm'; [now injection Hm' as <-|].
        apply (Hfirst j m'); [lia|exact Hm'].
Qed.

Lemma insert_last_perm l x (i : nat) :
  (i < length l)%nat -> <[i := x]> l ≡ₚ (delete i l ++ [x])%list.
Proof.
  revert i. induction l as [|n l IH]; intros [|i] Hi; cbn in *; try lia.
  - apply Permutation_cons_append.
  - constructor. apply IH. lia.
Qed.

Lemma delete_snoc l x (i : nat) :
  (i < length l)%nat -> delete i (l ++ [x])%list = (delete i l ++ [x])%list.
Proof.
  revert i. induction l as [|n l IH]; intros [|i] Hi; cbn in *; try lia; [reflexivity|].
  f_equal. apply IH. lia.
Qed.

Lemma swapPop_found l (i : nat) :
  (i < length l)%nat -> swapPop (Z.of_nat i) l ≡ₚ delete i l.
Proof.
  intros Hi. destruct (last l) as [x|] eqn:Hlast.
  - apply last_Some in Hlast as [l' ->].
    rewrite length_app in Hi. cbn in Hi. unfold swapPop.
    rewrite last_snoc, length_app. cbn [length].
    destruct (Z.ltb_spec (Z.of_nat i) (Z.of_nat (length l' + 1) - 1)) as [Hlt|Hge].
    + destruct (Z.leb_spec 0 (Z.of_nat i)); [|lia].
      rewrite Nat2Z.id, insert_app_l by lia.
      rewrite removelast_last, delete_snoc by lia.
      apply insert_last_perm. lia.
    + assert (i = length l') as -> by lia.
      rewrite removelast_last.
      replace (length l') with (length l' + 0)%nat at 2 by lia.
      now rewrite (delete_middle l' [] x), app_nil_r.
  - apply last_None in Hlast as ->. cbn in Hi. lia.
Qed.



End SwapRemove.

(** The removal step of [unresolve], for any value [x] searched by [indexOf]:
    when no element of the list has the identity (as for [undefined]), the
    result is -1 and the last element is removed; otherwise the result is the
    index of the first element with the identity, and the list afterwards
    holds the elements of the list without the one at that index, the last
    element having taken its place. *)
Theorem swap_remove_by_index (x : option nat) (l : list GraphNode) :
  (indexOf x l = -1 /\ (forall n, n ∈ l -> x <> Some (oid n)) /\
   swapPop (indexOf x l) l = removelast l) \/
  (exists i n,
     indexOf x l = Z.of_nat i /\ l !! i = Some n /\ x = Some (oid n) /\
     (forall j m, (j < i)%nat -> l !! j = Some m -> oid m <> oid n) /\
     swapPop (indexOf x l) l ≡ₚ delete i l).
Proof.
  destruct x as [k|]; cbn [indexOf].
  - destruct (indexFrom_spec k l 0) as [(Hnf & Hall)|(i & n & Hi & Hn & Hk & Hfirst)].
    + left. rewrite Hnf. split; [reflexivity|]. split; [|apply swapPop_not_found].
      intros n Hin [= Heq]. now apply (Hall n Hin).
    + right. exists i, n. rewrite Hi, Z.add_0_l. subst k.
      do 4 (split; [reflexivity || assumption|]).
      apply swapPop_found. now apply lookup_lt_Some in Hn.
  - left. split; [reflexivity|]. split; [discriminate|apply swapPop_not_found].
Qed.





(** ** Ambiguity warnings over any sequence of calls *)

Section Warnings.

Implicit Types (b : DefaultAnimBinder) (p : Path) (key : string).

Lemma string_length_app (a r : string) :
  String.length (a +:+ r) = (String.length a + String.length r)%nat.
Proof.
  induction a as [|c a IH]; [reflexivity|]. simpl. now rewrite IH.
Qed.

Lemma string_app_inv_tail (a a' r : string) : a +:+ r = a' +:+ r -> a = a'.
Proof.
  revert a'. induction a as [|c a IH]; intros [|c' a'] Heq.
  - reflexivity.
  - apply (f_equal String.length) in Heq.
    rewrite !string_length_app in Heq. simpl in Heq. lia.
  - apply (f_equal String.length) in Heq.
    rewrite !string_length_app in Heq. simpl in Heq. lia.
  - simpl in Heq. injection Heq as -> Heq. f_equal. now apply IH.
Qed.

Lemma ambiguityWarning_inj key key' b :
  ambiguityWarning key b = ambiguityWarning key' b -> key = key'.
Proof.
  unfold ambiguityWarning. intros Heq.
  apply String.app_inj in Heq. now apply string_app_inv_tail in Heq.
Qed.

Lemma warningsMatchCounters_same b b' :
  console b' = console b ->
  visitedFallbackGraphPaths b' = visitedFallbackGraphPaths b ->
  graph b' = graph b ->
  warningsMatchCounters b -> warningsMatchCounters b'.
Proof.
  intros Hc Hv Hg. unfold warningsMatchCounters.
  rewrite Hc, Hv.
  assert (Hw : forall key, ambiguityWarning key b' = ambiguityWarning key b)
    by (intros key; now apply ambiguityWarning_graph).
  intros (H1 & H2 & H3). split; [|split; [exact H2|]].
  - intros line Hin. destruct (H1 line Hin) as (key & c & -> & Hk & Hc2).
    exists key, c. now rewrite Hw.
  - intros key c Hk. rewrite Hw. now apply H3.
Qed.

Lemma noteFallback_warningsMatchCounters p b :
  warningsMatchCounters b -> warningsMatchCounters (noteFallback p b).
Proof.
  intros (Hlines & Hnd & Hcount).
  pose proof (noteFallback_frame p b) as (Hg & _).
  assert (Hw : forall key, ambiguityWarning key (noteFallback p b) = ambiguityWarning key b)
    by (intros key; now apply ambiguityWarning_graph).
  set (k0 := fallbackGraphPath p).
  assert (Hvis : forall key,
            visitedFallbackGraphPaths (noteFallback p b) !! key =
            if decide (k0 = key)
            then Some (match visitedFallbackGraphPaths b !! k0 with
                       | None => 0 | Some c => c + 1 end)
            else visitedFallbackGraphPaths b !! key).
  { intros key. destruct (decide (k0 = key)) as [<-|Hne]; [apply noteFallback_visited|].
    unfold noteFallback. fold k0.
    destruct (bool_decide _); cbn;
      destruct (visitedFallbackGraphPaths b !! k0); cbn; now rewrite lookup_insert_ne. }
  unfold warningsMatchCounters.
  rewrite noteFallback_console. fold k0.
  destruct (visitedFallbackGraphPaths b !! k0) as [c0|] eqn:Hc0.
  - destruct (Hcount k0 c0 Hc0) as (Hpos & Hwarned).
    case_bool_decide as Hone.
    + (* the counter is 1: the warning is written now *)
      injection Hone as ->.
      assert (Hfresh : ambiguityWarning k0 b ∉ console b).
      { intros Hin. destruct (Hlines _ Hin) as (key & c & Heq & Hk & Hc2).
        apply ambiguityWarning_inj in Heq as <-. rewrite Hc0 in Hk.
        injection Hk as <-. lia. }
      split; [|split].
      * intros line Hin. apply elem_of_app in Hin as [Hin|Hin].
        -- destruct (Hlines line Hin) as (key & c & -> & Hk & Hc2).
           exists key. rewrite Hw, Hvis. destruct (decide (k0 = key)) as [<-|Hne].
           ++ exists (1 + 1). split; [reflexivity|]. split; [reflexivity|lia].
           ++ exists c. auto.
        -- apply list_elem_of_singleton in Hin as ->.
           exists k0, (1 + 1). rewrite Hw, Hvis, decide_True by reflexivity.
           split; [reflexivity|]. split; [reflexivity|lia].
      * apply NoDup_app. split; [exact Hnd|]. split; [|apply NoDup_singleton].
        intros line Hin Hin'. apply list_elem_of_singleton in Hin' as ->. contradiction.
      * intros key c. rewrite Hvis, Hw. destruct (decide (k0 = key)) as [<-|Hne].
        -- intros [= <-]. split; [lia|]. intros _.
           apply elem_of_app. right. apply list_elem_of_here.
        -- intros Hk. destruct (Hcount key c Hk) as (Hp & Hin). split; [exact Hp|].
           intros Hc2. apply elem_of_app. left. auto.
    + (* another counter value: nothing is written *)
      assert (Hne1 : c0 <> 1) by congruence.
      rewrite app_nil_r. split; [|split; [exact Hnd|]].
      * intros line Hin. destruct (Hlines line Hin) as (key & c & -> & Hk & Hc2).
        exists key. rewrite Hw, Hvis. destruct (decide (k0 = key)) as [<-|Hne].
        -- exists (c0 + 1). split; [reflexivity|]. split; [reflexivity|].
           rewrite Hc0 in Hk. injection Hk as <-. lia.
        -- exists c. auto.
      * intros key c. rewrite Hvis, Hw. destruct (decide (k0 = key)) as [<-|Hne].
        -- intros [= <-]. split; [lia|]. intros Hc2. apply Hwarned. lia.
        -- apply Hcount.
  - rewrite bool_decide_eq_false_2 by discriminate. rewrite app_nil_r.
    split; [|split; [exact Hnd|]].
    + intros line Hin. destruct (Hlines line Hin) as (key & c & -> & Hk & Hc2).
      exists key, c. rewrite Hw, Hvis. destruct (decide (k0 = key)) as [<-|Hne]; [congruence|auto].
    + intros key c. rewrite Hvis, Hw. destruct (decide (k0 = key)) as [<-|Hne].
      * intros [= <-]. split; lia.
      * apply Hcount.
Qed.

Lemma findNode_warningsMatchCounters p b :
  warningsMatchCounters b -> warningsMatchCounters (snd (findNode p b)).
Proof.
  intros Hinv. unfold findNode. destruct (negb _); [exact Hinv|].
  destruct (findByPath _ _); [exact Hinv|]. cbn [snd].
  destruct (_DEBUG b); [now apply noteFallback_warningsMatchCounters|exact Hinv].
Qed.

Lemma resolve_warningsMatchCounters p b :
  warningsMatchCounters b -> warningsMatchCounters (snd (resolve p b)).
Proof.
  intros Hinv. pose proof (findNode_warningsMatchCounters p b Hinv) as Hf.
  destruct (resolve_cases p b)
    as [(t & _ & ->)|[(_ & -> & _)|(n & h & t & _ & _ & _ & _ & ->)]]; cbn [snd]; auto.
  pose proof (countNode_frame n (cache_target (encodedPath p) t (snd (findNode p b))))
    as (Hg & _ & _ & _ & _ & _ & Hc & Hv).
  eapply warningsMatchCounters_same; [exact Hc|exact Hv|exact Hg|].
  eapply warningsMatchCounters_same; [| | |exact Hf]; reflexivity.
Qed.

End Warnings.

(** In every state reached from the constructor, whatever paths, properties
    and fallback keys the calls interleave, the console holds no line twice,
    and its lines are exactly the ambiguity warnings of the fallback keys whose
    use counter has passed 1: each ambiguous key is reported once and only
    once. *)
Theorem ambiguity_warnings_once (debug : bool) (g : GraphNode) (b : DefaultAnimBinder) :
  reachable (new debug g) b ->
  NoDup (console b) /\
  forall line, line ∈ console b <->
    exists key c, line = ambiguityWarning key b /\
                  visitedFallbackGraphPaths b !! key = Some c /\ 2 <= c.
Proof.
  intros Hreach.
  assert (Hinv : warningsMatchCounters b).
  { induction Hreach as [|b p _ IH _|b p b' _ IH Hu|b mask _ IH].
    - split; [|split]; cbn.
      + intros line Hin. now apply elem_of_nil in Hin.
      + apply NoDup_nil_2.
      + intros key c Hk. now rewrite lookup_empty in Hk.
    - now apply resolve_warningsMatchCounters.
    - destruct (unresolve_frame _ _ _ Hu) as (Hg & _ & _ & _ & Hv & _ & Hc & _).
      eapply warningsMatchCounters_same; eauto.
    - eapply warningsMatchCounters_same; [| | |exact IH]; reflexivity. }
  destruct Hinv as (Hlines & Hnd & Hcount). split; [exact Hnd|].
  intros line. split; [apply Hlines|].
  intros (key & c & -> & Hk & Hc2). now apply (Hcount key c Hk).
Qed.

Lemma ambiguity_warnings_once_witness :
  let b := snd (resolve (Scenes.graphPath ["Xi"; "A"] "localPosition")
           (snd (resolve (Scenes.graphPath ["Yon"; "Ghost"] "localPosition")
           (snd (resolve (Scenes.graphPath ["Yon"; "A"] "localPosition")
           (snd (resolve (Scenes.graphPath ["Zed"; "A"] "localPosition")
                   (new true Scenes.Root)))))))) in
  NoDup (console b) /\ ambiguityWarning "A/graph/localPosition" b ∈ console b.
Proof.
  intros b. destruct (ambiguity_warnings_once true Scenes.Root b) as (Hnd & Hin).
  { repeat (apply reach_resolve; [|exact I]). apply reach_start. }
  split; [exact Hnd|]. apply Hin. exists "A/graph/localPosition", 2.
  split; [reflexivity|]. split; [vm_compute; reflexivity|lia].
Defined.

(** ** The mesh handlers *)

Section WeightsFrame.

Context {V : Type}.
Implicit Types (store : gmap nat (gmap nat V)) (ms : list MorphInstance) (value : list V).

Lemma inner_elsewhere ms i (v : V) id index : forall store,
  (forall m, m ∈ ms -> mid m <> id) ->
  weightAt (fold_left (fun st m' => setWeight m' i v st) ms store) id index
  = weightAt store id index.
Proof.
  induction ms as [|m0 ms IH]; intros store Hother; [reflexivity|].
  cbn [fold_left]. rewrite IH by (intros m Hm; apply Hother; now apply list_elem_of_further).
  rewrite weightAt_setWeight.
  rewrite decide_False; [reflexivity|].
  intros [Heq _]. apply (Hother m0); [apply list_elem_of_here|congruence].
Qed.

Lemma weightsLoop_elsewhere ms value : forall k store id index,
  (forall m, m ∈ ms -> mid m <> id) ->
  weightAt (weightsLoop ms k value store) id index = weightAt store id index.
Proof.
  induction value as [|v value IH]; intros k store id index Hother; [reflexivity|].
  cbn [weightsLoop]. rewrite IH by exact Hother. now apply inner_elsewhere.
Qed.

Lemma weightsLoop_above ms value : forall k store id index,
  (k + length value <= index)%nat ->
  weightAt (weightsLoop ms k value store) id index = weightAt store id index.
Proof.
  induction value as [|v value IH]; intros k store id index Hle; [reflexivity|].
  cbn [weightsLoop length] in *. rewrite IH by lia. apply inner_other. lia.
Qed.

End WeightsFrame.

(** Calling a target bound by the "weights" handler leaves alone the weights
    of every morph instance that is not one of the node's, and the weights at
    the indices from the length of the vector on; with an empty vector it
    changes no weight. *)
Theorem weights_target_frame (fresh : nat) (n : GraphNode) (t : AnimTarget)
    (V : Type) (value : list V) (store : gmap nat (gmap nat V)) (id index : nat) :
  handler_weights fresh n = Some t ->
  (forall m, m ∈ morphInstancesOf n -> mid m <> id) \/ (length value <= index)%nat ->
  weightAt (callWeights t value store) id index = weightAt store id index.
Proof.
  unfold handler_weights, morphInstancesOf.
  destruct (findMeshInstances n) as [mis|]; [|discriminate].
  destruct (collectMorphInstances n mis) as [|m0 ms]; [discriminate|].
  intros [= <-] Hframe. unfold callWeights. cbn [createAnimTarget func].
  destruct Hframe as [Hother|Hlen].
  - now apply weightsLoop_elsewhere.
  - apply weightsLoop_above. lia.
Qed.

Lemma weights_target_frame_witness :
  exists t, handler_weights 0 Scenes.head = Some t /\
    weightAt (callWeights t [5; 6] {[8%nat := {[0%nat := 9]}; 7%nat := {[2%nat := 4]}]}) 8 0
      = Some 9 /\
    weightAt (callWeights t [5; 6] {[8%nat := {[0%nat := 9]}; 7%nat := {[2%nat := 4]}]}) 7 2
      = Some 4.
Proof.
  assert (Hsome : is_Some (handler_weights 0 Scenes.head)) by (vm_compute; eauto).
  destruct Hsome as [t Ht]. exists t. split; [exact Ht|]. split.
  - rewrite (weights_target_frame 0 Scenes.head t Z _ _ 8 0 Ht); [reflexivity|].
    left. intros m Hm. vm_compute in Hm.
    apply list_elem_of_singleton in Hm as ->. discriminate.
  - rewrite (weights_target_frame 0 Scenes.head t Z _ _ 7 2 Ht); [reflexivity|].
    right. simpl. lia.
Defined.

Section MeshInstances.

Implicit Types (n : GraphNode) (mis : list MeshInstance).

Lemma lineage_unfold n :
  lineage n = n :: match parent n with Some up => lineage up | None => [] end.
Proof. destruct n; reflexivity. Qed.

Lemma firstEntity_unfold n :
  firstEntity n =
  if isEntity n then Some n
  else match parent n with Some up => firstEntity up | None => None end.
Proof. destruct n; reflexivity. Qed.

(** The loop stops at the nearest entity of the lineage. *)
Lemma firstEntity_lineage n : firstEntity n = List.find isEntity (lineage n).
Proof.
  induction n as [n IH] using GraphNode_lineage_ind.
  rewrite firstEntity_unfold, lineage_unfold. cbn [List.find].
  destruct (isEntity n); [reflexivity|].
  destruct (parent n) as [up|]; [exact IH|reflexivity].
Qed.

Lemma find_first {A} (f : A -> bool) (l : list A) (x : A) :
  List.find f l = Some x ->
  exists i, l !! i = Some x /\ f x = true /\
            forall j y, (j < i)%nat -> l !! j = Some y -> f y = false.
Proof.
  induction l as [|a l IH]; cbn [List.find]; [discriminate|].
  destruct (f a) eqn:Hfa.
  - intros [= <-]. exists 0%nat. split; [reflexivity|]. split; [exact Hfa|]. intros j y Hj. lia.
  - intros Hfind. destruct (IH Hfind) as (i & Hi & Hfx & Hfirst).
    exists (S i). split; [exact Hi|]. split; [exact Hfx|].
    intros [|j] y Hj Hy; [now injection Hy as <-|]. apply (Hfirst j y); [lia|exact Hy].
Qed.

Lemma collected_has_mesh_instance n mis m :
  m ∈ collectMorphInstances n mis ->
  exists mi, mi ∈ mis /\ mi_node_name mi = name n /\ morphInstance mi = Some m.
Proof.
  induction mis as [|mi mis IH]; cbn [collectMorphInstances].
  - intros H. now apply elem_of_nil in H.
  - destruct (morphInstance mi) as [m'|] eqn:Hm.
    + case_bool_decide as Hname.
      * intros Hin. apply elem_of_cons in Hin as [->|Hin].
        -- exists mi. split; [apply list_elem_of_here|auto].
        -- destruct (IH Hin) as (mi' & Hin' & H'). exists mi'.
           split; [now apply list_elem_of_further|exact H'].
      * intros Hin. destruct (IH Hin) as (mi' & Hin' & H'). exists mi'.
        split; [now apply list_elem_of_further|exact H'].
    + intros Hin. destruct (IH Hin) as (mi' & Hin' & H'). exists mi'.
      split; [now apply list_elem_of_further|exact H'].
Qed.

End MeshInstances.

(** [findMeshInstances] takes the mesh instances of the nearest entity among
    the node and its ancestors: of its render component when it has one, even
    one whose mesh instances are unset, else of its model component.  When
    neither the node nor an ancestor is an entity, the "weights" and the
    "materialTexture" handler bind nothing. *)
Theorem mesh_instances_of_nearest_entity (n : GraphNode) :
  findMeshInstances n =
    (List.find isEntity (lineage n) ≫= fun owner =>
       match render owner with
       | Some r => meshInstances r
       | None => model owner ≫= meshInstances
       end) /\
  (Forall (fun a => isEntity a = false) (lineage n) ->
   forall fresh textureName,
     handler_weights fresh n = None /\
     handler_materialTexture fresh n textureName = None).
Proof.
  assert (Hfind : findMeshInstances n =
    (List.find isEntity (lineage n) ≫= fun owner =>
       match render owner with
       | Some r => meshInstances r
       | None => model owner ≫= meshInstances
       end)).
  { unfold findMeshInstances. rewrite firstEntity_lineage.
    destruct (List.find isEntity (lineage n)) as [owner|]; [|reflexivity].
    cbn [mbind option_bind]. destruct (render owner); [reflexivity|].
    now destruct (model owner). }
  split; [exact Hfind|].
  intros Hnone fresh textureName.
  assert (Hno : List.find isEntity (lineage n) = None).
  { destruct (List.find isEntity (lineage n)) as [owner|] eqn:Ho; [|reflexivity].
    apply find_some in Ho as [Hin Hent].
    rewrite Forall_forall in Hnone. apply list_elem_of_In in Hin.
    rewrite (Hnone owner Hin) in Hent. discriminate. }
  unfold handler_weights, handler_materialTexture. rewrite Hfind, Hno. now cbn.
Qed.

Lemma mesh_instances_of_nearest_entity_witness :
  handler_weights 0 Scenes.leafX = None /\
  handler_materialTexture 0 Scenes.leafX (Some "diffuseMap") = None.
Proof.
  destruct (mesh_instances_of_nearest_entity Scenes.leafX) as (_ & Hnone).
  apply Hnone. vm_compute. repeat constructor.
Defined.

(** The "materialTexture" handler binds the first mesh instance of the owner
    whose node has the name of the node: the target is a vector of 1 with the
    component kind "material" in its target path; it binds nothing exactly
    when the owner has no mesh instance of that name.  It binds whenever the
    "weights" handler does, and called through the handler table, as [resolve]
    does, it captures no texture name. *)
Theorem materialTexture_handler (fresh : nat) (n : GraphNode) (textureName : option string) :
  (forall t, handler_materialTexture fresh n textureName = Some t ->
     exists mis i mi,
       findMeshInstances n = Some mis /\ mis !! i = Some mi /\
       mi_node_name mi = name n /\
       (forall j mj, (j < i)%nat -> mis !! j = Some mj -> mi_node_name mj <> name n) /\
       func t = SetMaterialTexture mi textureName /\
       type t = "vector" /\ valueCount t = 1%nat /\
       targetPath t = encode [path n] "material" "materialTexture") /\
  (handler_materialTexture fresh n textureName = None <->
   forall mis mi, findMeshInstances n = Some mis -> mi ∈ mis -> mi_node_name mi <> name n) /\
  (is_Some (handler_weights fresh n) ->
   is_Some (handler_materialTexture fresh n textureName)) /\
  (forall handler t, handlers "materialTexture" = Some handler ->
     handler fresh n = Some t -> exists mi, func t = SetMaterialTexture mi None).
Proof.
  assert (Hnone : handler_materialTexture fresh n textureName = None <->
    forall mis mi, findMeshInstances n = Some mis -> mi ∈ mis -> mi_node_name mi <> name n).
  { unfold handler_materialTexture.
    destruct (findMeshInstances n) as [mis|]; [|split; [discriminate|reflexivity]].
    destruct (List.find _ mis) as [mi|] eqn:Hfind.
    - split; [discriminate|]. intros Hall. exfalso.
      apply find_some in Hfind as [Hin Hname]. apply bool_decide_eq_true in Hname.
      apply (Hall mis mi eq_refl); [now apply list_elem_of_In|exact Hname].
    - split; [|reflexivity]. intros _ mis' mi [= <-] Hin Hname.
      apply list_elem_of_In in Hin.
      pose proof (find_none _ _ Hfind mi Hin) as Hf. cbn in Hf.
      apply bool_decide_eq_false in Hf. contradiction. }
  split; [|split; [exact Hnone|split]].
  - unfold handler_materialTexture. intros t.
    destruct (findMeshInstances n) as [mis|]; [|discriminate].
    destruct (List.find _ mis) as [mi|] eqn:Hfind; [|discriminate].
    intros [= <-]. destruct (find_first _ _ _ Hfind) as (i & Hi & Hname & Hfirst).
    apply bool_decide_eq_true in Hname.
    exists mis, i, mi. do 3 (split; [reflexivity || assumption|]). split; [|now cbn].
    intros j mj Hj Hmj. specialize (Hfirst j mj Hj Hmj).
    now apply bool_decide_eq_false in Hfirst.
  - intros [t Ht].
    destruct (handler_materialTexture fresh n textureName) eqn:Hmt; [eauto|exfalso].
    unfold handler_weights in Ht.
    destruct (findMeshInstances n) as [mis|] eqn:Hmis; [|discriminate].
    destruct (collectMorphInstances n mis) as [|m0 ms] eqn:Hcol; [discriminate|].
    destruct (collected_has_mesh_instance n mis m0) as (mi & Hin & Hname & _).
    { rewrite Hcol. apply list_elem_of_here. }
    destruct Hnone as [Hall _]. exact (Hall eq_refl mis mi eq_refl Hin Hname).
  - intros handler t [= <-]. unfold handler_materialTexture.
    destruct (findMeshInstances n) as [mis|]; [|discriminate].
    destruct (List.find _ mis) as [mi|]; [|discriminate].
    intros [= <-]. now exists mi.
Qed.

Lemma materialTexture_handler_witness :
  exists t, handler_materialTexture 0 Scenes.hat (Some "emissiveMap") = Some t /\
            targetPath t = "Actor/Hat/material/materialTexture" /\
            handler_weights 0 Scenes.hat = None.
Proof.
  destruct (materialTexture_handler 0 Scenes.hat (Some "emissiveMap")) as (Hsome & _).
  assert (Ht : is_Some (handler_materialTexture 0 Scenes.hat (Some "emissiveMap")))
    by (vm_compute; eauto).
  destruct Ht as [t Ht]. exists t. split; [exact Ht|].
  destruct (Hsome t Ht) as (_ & _ & _ & _ & _ & _ & _ & _ & _ & _ & Hpath).
  split; [rewrite Hpath; reflexivity|reflexivity].
Defined.

(** ** The debug log system *)

Set Warnings "-clear-no-such-hyp".

Section DebugLog.

Import Debug.

Implicit Types (s : State) (c : OnceCall) (cs : list OnceCall).

(** The four functions that log once differ in the line only. *)
Lemma callOnce_cases s c :
  callOnce s c =
  if bool_decide (messageOf c ∈ _loggedMessages s) then s
  else write (fst (lineOf c)) (snd (lineOf c)) (remember (messageOf c) s).
Proof. destruct c; reflexivity. Qed.

Lemma calls_once cs : forall s,
  output (fold_left callOnce cs s)
    = (output s ++ (lineOf <$> firstCalls (_loggedMessages s) cs))%list /\
  _loggedMessages (fold_left callOnce cs s)
    = _loggedMessages s ∪ list_to_set (messageOf <$> cs) /\
  _traceChannels (fold_left callOnce cs s) = _traceChannels s.
Proof.
  induction cs as [|c cs IH]; intros s; cbn [fold_left firstCalls fmap list_fmap].
  - rewrite app_nil_r. split; [reflexivity|]. split; [set_solver|reflexivity].
  - destruct (IH (callOnce s c)) as (Hout & Hlog & Htr). rewrite Hout, Hlog, Htr.
    rewrite callOnce_cases. case_bool_decide as Hseen.
    + split; [reflexivity|]. split; [set_solver|reflexivity].
    + cbn [write remember output _loggedMessages _traceChannels list_to_set].
      rewrite <- app_assoc, fmap_cons, <- surjective_pairing. cbn [app].
      split; [reflexivity|]. split; [set_solver|reflexivity].
Qed.

Lemma firstCalls_messages cs : forall (seen : gset string),
  NoDup (messageOf <$> firstCalls seen cs) /\
  forall m, m ∈ messageOf <$> firstCalls seen cs <-> m ∈ messageOf <$> cs /\ m ∉ seen.
Proof.
  induction cs as [|c cs IH]; intros seen; cbn [firstCalls fmap list_fmap].
  - split; [apply NoDup_nil_2|]. intros m. split.
    + intros H. now apply elem_of_nil in H.
    + intros [H _]. now apply elem_of_nil in H.
  - case_bool_decide as Hseen.
    + destruct (IH seen) as (Hnd & Hin). split; [exact Hnd|].
      intros m. rewrite Hin, elem_of_cons. split; [tauto|].
      intros [[->|H] Hn]; [contradiction|tauto].
    + destruct (IH ({[messageOf c]} ∪ seen)) as (Hnd & Hin).
      cbn [fmap list_fmap]. split.
      * apply NoDup_cons. split; [|exact Hnd]. rewrite Hin. set_solver.
      * intros m. rewrite !elem_of_cons, Hin. split.
        -- intros [->|[H Hn]]; [tauto|]. split; [tauto|set_solver].
        -- intros [[->|H] Hn]; [tauto|].
           destruct (decide (m = messageOf c)) as [->|Hne]; [tauto|]. right.
           split; [exact H|set_solver].
Qed.

Lemma setTrace_debug (channel : string) (enabled : bool) s :
  _DEBUG (setTrace channel enabled s) = _DEBUG s.
Proof. unfold setTrace. destruct (_DEBUG s) eqn:Hd, enabled; cbn; auto. Qed.

Lemma getTrace_setTrace (channel other : string) (enabled : bool) s :
  _DEBUG s = true ->
  getTrace channel (setTrace other enabled s)
  = if bool_decide (other = channel) then enabled else getTrace channel s.
Proof.
  intros Hd. unfold getTrace, setTrace. rewrite Hd.
  destruct (decide (other = channel)) as [->|Hne].
  - rewrite (bool_decide_eq_true_2 (channel = channel)) by reflexivity.
    destruct enabled; cbn [set_channels _traceChannels].
    + apply bool_decide_eq_true_2. set_solver.
    + apply bool_decide_eq_false_2. set_solver.
  - rewrite (bool_decide_eq_false_2 (other = channel)) by exact Hne.
    destruct enabled; cbn [set_channels _traceChannels]; apply bool_decide_ext; set_solver.
Qed.

Lemma codeUnits_app (a r : string) :
  codeUnits (a +:+ r) = (codeUnits a + codeUnits r)%nat.
Proof. induction a as [|c a IH]; [reflexivity|]. simpl. rewrite IH. lia. Qed.

Lemma codeUnits_spaces (k : nat) : codeUnits (spaces k) = k.
Proof.
  induction k as [|k IH]; [reflexivity|].
  change (spaces (S k)) with (" " +:+ spaces k).
  rewrite codeUnits_app, IH. reflexivity.
Qed.

End DebugLog.

(** Over any sequence of calls of [deprecated], [logOnce], [warnOnce] and
    [errorOnce], which share one set of logged messages, the lines written are
    those of the calls that are the first with their message, in call order: a
    message is written once at most, by the function that logged it first and
    at that function's level, and never if it was logged before the
    sequence. *)
Theorem once_functions_log_once (cs : list Debug.OnceCall) (s : Debug.State) :
  let s' := fold_left Debug.callOnce cs s in
  let firsts := Debug.firstCalls (Debug._loggedMessages s) cs in
  Debug.output s' = (Debug.output s ++ (Debug.lineOf <$> firsts))%list /\
  NoDup (Debug.messageOf <$> firsts) /\
  (forall m, m ∈ Debug.messageOf <$> firsts <->
             m ∈ Debug.messageOf <$> cs /\ m ∉ Debug._loggedMessages s) /\
  Debug._loggedMessages s'
    = Debug._loggedMessages s ∪ list_to_set (Debug.messageOf <$> cs).
Proof.
  cbv zeta. destruct (calls_once cs s) as (Hout & Hlog & _).
  destruct (firstCalls_messages cs (Debug._loggedMessages s)) as (Hnd & Hin).
  auto.
Qed.

(** After any sequence of [setTrace] calls in a debug build, [getTrace] of a
    channel answers the [enabled] argument of the last call for that channel,
    or what it answered before when there was none; in a build without the
    [_DEBUG] block the calls change nothing. *)
Theorem trace_channel_last_setting (calls : list (string * bool)) (s : Debug.State)
    (channel : string) :
  Debug.getTrace channel
    (fold_left (fun s' call => Debug.setTrace (fst call) (snd call) s') calls s)
  = if Debug._DEBUG s
    then default (Debug.getTrace channel s) (Debug.lastSetting channel calls)
    else Debug.getTrace channel s.
Proof.
  revert s. induction calls as [|[c enabled] calls IH]; intros s;
    cbn [fold_left Debug.lastSetting fst snd].
  - now destruct (Debug._DEBUG s).
  - rewrite IH, setTrace_debug. destruct (Debug._DEBUG s) eqn:Hd.
    + destruct (Debug.lastSetting channel calls) as [e|]; [reflexivity|].
      cbn [default]. rewrite (getTrace_setTrace channel c enabled s Hd).
      now case_bool_decide.
    + unfold Debug.setTrace. now rewrite Hd.
Qed.

(** In a debug build, [trace] right after [setTrace] of its channel writes one
    [console.log] line when the channel was enabled and nothing when it was
    disabled; the first argument of the line is the channel name, padded with
    spaces to a length of 20 UTF-16 code units when shorter, followed by a
    bar. *)
Theorem trace_follows_setTrace (channel : string) (enabled : bool) (args : list string)
    (s : Debug.State) :
  Debug._DEBUG s = true ->
  Debug.output (Debug.trace channel args (Debug.setTrace channel enabled s))
  = (Debug.output s ++
     if enabled then [(Debug.LOG, (Debug.padEnd 20 channel +:+ "|") :: args)] else [])%list /\
  Debug.codeUnits (Debug.padEnd 20 channel +:+ "|")
  = S (Nat.max 20 (Debug.codeUnits channel)).
Proof.
  intros Hd. split.
  - unfold Debug.trace.
    pose proof (getTrace_setTrace channel channel enabled s Hd) as Hget.
    unfold Debug.getTrace in Hget. rewrite Hget, bool_decide_eq_true_2 by reflexivity.
    unfold Debug.setTrace. rewrite Hd.
    destruct enabled; [reflexivity|]. cbn. now rewrite app_nil_r.
  - unfold Debug.padEnd. rewrite !codeUnits_app, codeUnits_spaces.
    change (Debug.codeUnits "|") with 1%nat. lia.
Qed.

Lemma trace_follows_setTrace_witness :
  Debug.output (Debug.trace "RenderPass" ["begin"]
                  (Debug.setTrace "RenderPass" true (Debug.init true)))
  = [(Debug.LOG, ["RenderPass          |"; "begin"])] /\
  Debug.codeUnits (Debug.padEnd 20 "Café" +:+ "|") = 21%nat /\
  Debug.padEnd 20 "Café" = "Café                ".
Proof.
  destruct (trace_follows_setTrace "RenderPass" true ["begin"] (Debug.init true) eq_refl)
    as (Hout & _).
  destruct (trace_follows_setTrace "Café" true [] (Debug.init true) eq_refl)
    as (_ & Hlen).
  rewrite Hout, Hlen. split; [reflexivity|]. split; reflexivity.
Defined.

(** ** What [resolve] returns for the transform properties, and when
       [unresolve] throws *)

(** A target that [resolve] creates for localPosition, localRotation or
    localScale is bound to the node that [findNode] returns: a vector of 3, a
    quaternion of 4, a vector of 3; its target path is made of the node's own
    path, the component kind "entity" and the property, whatever entity path
    and component kind the resolved path carries. *)
Theorem resolve_transform_target (p : Path) (b b1 : DefaultAnimBinder) (t : AnimTarget) :
  targetCache b !! encodedPath p = None ->
  resolve p b = (Some t, b1) ->
  propertyPath p ∈ ["localPosition"; "localRotation"; "localScale"] ->
  exists n,
    fst (findNode p b) = Some n /\
    targetPath t = encode [path n] "entity" (propertyPath p) /\
    (type t, valueCount t, func t) =
      (if bool_decide (propertyPath p = "localRotation")
       then ("quaternion", 4%nat, SetLocalRotation (oid n))
       else if bool_decide (propertyPath p = "localPosition")
            then ("vector", 3%nat, SetLocalPosition (oid n))
            else ("vector", 3%nat, SetLocalScale (oid n))).
Proof.
  intros Hmiss Hres Hprop.
  destruct (resolve_cases p b)
    as [(t' & Hc & _)|[(_ & Hr & _)|(n & h & t' & _ & Hn & Hh & Ht & Hr)]];
    [congruence|congruence|].
  rewrite Hr in Hres. injection Hres as -> _.
  exists n. split; [exact Hn|].
  repeat (apply elem_of_cons in Hprop as [Hp|Hprop]);
    [| | |now apply elem_of_nil in Hprop];
    rewrite Hp in Hh |- *; injection Hh as <-; injection Ht as <-; split; reflexivity.
Qed.

Lemma resolve_transform_target_witness :
  exists t, fst (resolve (Scenes.graphPath ["Elsewhere"; "Leaf"] "localRotation")
                   (new true Scenes.Top)) = Some t /\
            targetPath t = "Top/Y/Leaf/entity/localRotation" /\
            (type t, valueCount t, func t) = ("quaternion", 4%nat, SetLocalRotation 4).
Proof.
  set (p := Scenes.graphPath ["Elsewhere"; "Leaf"] "localRotation").
  set (b := new true Scenes.Top).
  assert (Hsome : is_Some (fst (resolve p b))) by (vm_compute; eauto).
  destruct Hsome as [t Ht]. exists t. split; [exact Ht|].
  destruct (resolve_transform_target p b (snd (resolve p b)) t) as (n & Hn & Hpath & Hshape).
  - reflexivity.
  - rewrite <- Ht. now destruct (resolve p b).
  - apply list_elem_of_further, list_elem_of_here.
  - vm_compute in Hn. injection Hn as <-. rewrite Hpath, Hshape. split; reflexivity.
Defined.


